(** * 112Travel: the suggestion engine of [app.py]

    A shallow embedding of the Flask application [src/app.py]: the
    application state and trip tables, the helpers [_uniq_sorted] and
    [_load_country_city_catalog], the endpoints [api_set_state],
    [api_add_trip] and [api_suggestions], and the properties of the
    recommendation engine that the specification states.

    Conventions.
    - A Python [str] is the list of its Unicode code points.
    - A Python [dict] is an association list in insertion order without
      repeated keys, which is the order Python iterates it in.
    - A Python [set] has no order of its own: the order in which a set of
      strings is iterated depends on the hash seed of the process.  It is
      a parameter of the model (class [HashOrder]).
    - scikit-learn ([TfidfVectorizer], [cosine_similarity]) and
      [datetime.strptime] are library code; they are parameters of the
      model (classes [Scorer] and [DateParser]).
    - A finite [float] is the rational number it denotes.
    - An unhandled exception is the result [None]. *)

From Stdlib Require Import Ascii String.
From Stdlib Require Import List NArith ZArith QArith Qabs Bool Lia.
From Stdlib Require Import Permutation Sorted.
From Stdlib Require Import Reals Lra.
From Stdlib Require Floats.
Import ListNotations.

Set Implicit Arguments.

(* ------------------------------------------------------------------ *)
(** * Python strings *)
(* ------------------------------------------------------------------ *)

Definition char := N.
Definition str := list char.

(** A literal of ASCII characters. *)
Definition lit (s : string) : str := map N_of_ascii (list_ascii_of_string s).

Definition str_eq_dec : forall a b : str, {a = b} + {a <> b} :=
  list_eq_dec N.eq_dec.

Definition str_eqb (a b : str) : bool := if str_eq_dec a b then true else false.

(** [str.isspace] for one character: the characters [str.strip()] removes
    (CPython's [_Py_ascii_whitespace] and [_PyUnicode_IsWhitespace]). *)
Definition isspace (c : char) : bool :=
  (((9 <=? c) && (c <=? 13)) || ((28 <=? c) && (c <=? 32))
  || (c =? 133) || (c =? 160) || (c =? 5760)
  || ((8192 <=? c) && (c <=? 8202))
  || (c =? 8232) || (c =? 8233) || (c =? 8239) || (c =? 8287)
  || (c =? 12288))%N.

Fixpoint lstrip (s : str) : str :=
  match s with
  | [] => []
  | c :: s' => if isspace c then lstrip s' else s
  end.

Definition rstrip (s : str) : str := rev (lstrip (rev s)).

(** [s.strip()] *)
Definition strip (s : str) : str := rstrip (lstrip s).

(** [sep.join(parts)] *)
Fixpoint join (sep : str) (parts : list str) : str :=
  match parts with
  | [] => []
  | [p] => p
  | p :: ps => p ++ sep ++ join sep ps
  end.

(** Truth value of a string or list: [bool(x)]. *)
Definition truthy {A} (l : list A) : bool :=
  match l with [] => false | _ :: _ => true end.

(** [a < b] on strings: lexicographic on code points. *)
Fixpoint str_ltb (a b : str) : bool :=
  match a, b with
  | _, [] => false
  | [], _ :: _ => true
  | x :: a', y :: b' =>
      if x <? y then true else if x =? y then str_ltb a' b' else false
  end%N.

(** [x in l] *)
Definition str_in (x : str) (l : list str) : bool := existsb (str_eqb x) l.

(* ------------------------------------------------------------------ *)
(** * [sorted] and [list.sort]

    Python's sort is stable and compares with [<] only.  With
    [reverse=True] the result is descending and still stable: elements
    that compare equal keep their original order.  Both are the stable
    insertion sort below, taken at the relation [before a b] that says
    that [a] must come strictly before [b]: [a < b] for [sorted(l)],
    [key(b) < key(a)] for [l.sort(key=key, reverse=True)]. *)
(* ------------------------------------------------------------------ *)

Section StableSort.
Variable A : Type.
Variable before : A -> A -> bool.

Fixpoint insert (x : A) (l : list A) : list A :=
  match l with
  | [] => [x]
  | y :: r => if before y x then y :: insert x r else x :: y :: r
  end.

Fixpoint stable_sort (l : list A) : list A :=
  match l with
  | [] => []
  | x :: r => insert x (stable_sort r)
  end.

(** No later element must come strictly before an earlier one. *)
Definition ordered (l : list A) : Prop :=
  StronglySorted (fun a b => before b a = false) l.
End StableSort.

(* ------------------------------------------------------------------ *)
(** * Python dictionaries *)
(* ------------------------------------------------------------------ *)

Section Dict.
Variable V : Type.

Definition dict := list (str * V).

(** [d[k]], when [k in d] *)
Fixpoint dict_get (d : dict) (k : str) : option V :=
  match d with
  | [] => None
  | (k', v) :: r => if str_eqb k k' then Some v else dict_get r k
  end.

(** [k in d] *)
Definition dict_mem (d : dict) (k : str) : bool :=
  match dict_get d k with Some _ => true | None => false end.

(** [d.get(k, default)] *)
Definition dict_get_default (d : dict) (k : str) (default : V) : V :=
  match dict_get d k with Some v => v | None => default end.

(** [d[k] = v]: a key already there keeps its place. *)
Fixpoint dict_set (d : dict) (k : str) (v : V) : dict :=
  match d with
  | [] => [(k, v)]
  | (k', v') :: r =>
      if str_eqb k k' then (k', v) :: r else (k', v') :: dict_set r k v
  end.

(** [list(d)] *)
Definition dict_keys (d : dict) : list str := map fst d.
End Dict.

(* ------------------------------------------------------------------ *)
(** * Floats and their formatting *)
(* ------------------------------------------------------------------ *)

(** The literal [0.10]: the double nearest to one tenth. *)
Definition float_0_10 : Q := 3602879701896397 # 36028797018963968.

(** [a < b] on floats. *)
Definition float_ltb (a b : Q) : bool := negb (Qle_bool b a).

Fixpoint digits (u : Decimal.uint) : str :=
  match u with
  | Decimal.Nil => []
  | Decimal.D0 u => 48%N :: digits u
  | Decimal.D1 u => 49%N :: digits u
  | Decimal.D2 u => 50%N :: digits u
  | Decimal.D3 u => 51%N :: digits u
  | Decimal.D4 u => 52%N :: digits u
  | Decimal.D5 u => 53%N :: digits u
  | Decimal.D6 u => 54%N :: digits u
  | Decimal.D7 u => 55%N :: digits u
  | Decimal.D8 u => 56%N :: digits u
  | Decimal.D9 u => 57%N :: digits u
  end.

(** [str(n)] for a natural number. *)
Definition str_of_N (n : N) : str := digits (N.to_uint n).

(** The integer nearest to [q >= 0], a tie going to the even one. *)
Definition round_half_even (q : Q) : Z :=
  let n := Qnum q in
  let d := Z.pos (Qden q) in
  let fl := (n / d)%Z in
  let r2 := (2 * (n mod d))%Z in
  if (r2 <? d)%Z then fl
  else if (d <? r2)%Z then (fl + 1)%Z
  else if Z.even fl then fl else (fl + 1)%Z.

(** [f"{x:.2f}"]: two decimals, correctly rounded. *)
Definition format_2f (x : Q) : str :=
  let h := Z.to_N (round_half_even (Qabs x * (100 # 1))) in
  (if Qlt_le_dec x 0 then lit "-" else [])
    ++ str_of_N (h / 100) ++ lit "."
    ++ [(48 + (h mod 100) / 10)%N; (48 + h mod 10)%N].

(* ------------------------------------------------------------------ *)
(** * What the model takes from outside the repository *)
(* ------------------------------------------------------------------ *)

(** The order in which a set is iterated.  [set_iter l] lists the set
    built from the elements of [l]: each element once, in an order that
    the hash seed decides. *)
Class HashOrder := {
  set_iter : list str -> list str;
  set_iter_NoDup : forall l, NoDup (set_iter l);
  set_iter_In : forall l x, In x (set_iter l) <-> In x l
}.

(** Lines 303-310 of [api_suggestions]: [TfidfVectorizer.fit_transform]
    over the profile documents followed by the candidate documents, the
    mean of the profile rows, and [cosine_similarity] of each candidate
    row with it.  [None] when scikit-learn raises (an empty vocabulary).
    There is one similarity per candidate document. *)
Class Scorer := {
  tfidf_cosine : list str -> list str -> option (list Q);
  tfidf_cosine_length :
    forall visited_docs candidate_docs sims,
      tfidf_cosine visited_docs candidate_docs = Some sims ->
      length sims = length candidate_docs
}.

Record date := { year : Z; month : Z; day : Z }.

(** [datetime.strptime(value, "%Y-%m-%d").date()]; [None] when it raises. *)
Class DateParser := {
  strptime_ymd : str -> option date
}.

(** One hash order: the elements in the order of the list, each at its
    last occurrence. *)
Instance insertion_order : HashOrder.
Proof.
  refine {| set_iter := nodup str_eq_dec |}.
  - intros l. apply NoDup_nodup.
  - intros l x. apply nodup_In.
Defined.

(** Another one: the same elements, the other way round. *)
Definition reverse_insertion_order : HashOrder.
Proof.
  refine {| set_iter := fun l => rev (nodup str_eq_dec l) |}.
  - intros l. apply NoDup_rev, NoDup_nodup.
  - intros l x. rewrite <- in_rev. apply nodup_In.
Defined.

(* ------------------------------------------------------------------ *)
(** * Models (tables [app_state] and [trip]) *)
(* ------------------------------------------------------------------ *)

(** A [datetime]: a point on the clock's time line. *)
Definition datetime := Z.

Module AppState.
Record t := {
  id : Z;
  visited : list str;
  planned : list str;
  created_at : datetime;
  updated_at : datetime
}.
End AppState.

Module Trip.
Record t := {
  id : Z;
  country : str;
  start_date : option date;
  end_date : option date;
  cities : list str;
  companions : list str;
  notes : str;
  created_at : datetime
}.
End Trip.

(** The database: the row of [app_state] with [id = 1], if there is one,
    and the rows of [trip] in the order they were inserted. *)
Record DB := {
  state_row : option AppState.t;
  trip_rows : list Trip.t
}.

(** The candidate dictionaries [{"country": .., "city": .., "doc": ..}]. *)
Module Candidate.
Record t := { country : str; city : str; doc : str }.
End Candidate.

(** The suggestion dictionaries [{"city": .., "score": .., "reason": ..}]. *)
Module Suggestion.
Record t := { city : str; score : Q; reason : str }.
End Suggestion.

(** What [jsonify] is given. *)
Inductive body :=
| BOk
| BError (error : str)
| BState (visited planned : list str)
| BTrip (trip_id : Z)
| BSuggestions (suggestions : dict (list Suggestion.t)) (note : option str).

(** The ["ok"] member of a body. *)
Definition ok (b : body) : bool :=
  match b with BError _ => false | _ => true end.

Record response := { status : nat; json : body }.

(* ------------------------------------------------------------------ *)
(** * Helpers *)
(* ------------------------------------------------------------------ *)

(** With the row missing, one is added and committed; [now] is the
    clock's reading for the column defaults. *)
Definition _ensure_state_row (db : DB) (now : datetime) : DB * AppState.t :=
  match state_row db with
  | Some s => (db, s)
  | None =>
      let s := AppState.Build_t 1 [] [] now now in
      ({| state_row := Some s; trip_rows := trip_rows db |}, s)
  end.

Definition _parse_date_yyyy_mm_dd `{DateParser} (value : option str)
  : option (option date) :=
  match value with
  | None => Some None
  | Some v =>
      if negb (truthy v) then Some None
      else match strptime_ymd v with
           | Some d => Some (Some d)
           | None => None
           end
  end.

Definition _uniq_sorted `{HashOrder} (values : list str) : list str :=
  stable_sort str_ltb
    (set_iter (map strip (filter (fun v => truthy (strip v)) values))).

(** A value of the catalog file: a list of strings, or something that is
    no list. *)
Inductive json_value :=
| JList (items : list str)
| JOther.

(** [static/data/country_cities.json]: missing, or the JSON object it
    holds, as [json.load] returns it.  A file that the loader cannot
    read - one that is no JSON, or that holds an array or a scalar other
    than an empty or null one - makes it raise; see [catalog_source]. *)
Inductive catalog_file :=
| NoFile
| File (data : dict json_value).

Definition _load_country_city_catalog `{HashOrder} (file : catalog_file)
  : dict (list str) :=
  match file with
  | NoFile => []
  | File data =>
      fold_left
        (fun out kv =>
           match snd kv with
           | JList v => dict_set out (strip (fst kv)) (_uniq_sorted v)
           | JOther => out
           end)
        data []
  end.

(** [Trip.query.order_by(Trip.created_at.desc()).all()].  The query
    names no order for trips of equal [created_at]; the model lists them
    in the order of the table, and nothing is stated about their
    order. *)
Definition query_trips (db : DB) : list Trip.t :=
  stable_sort
    (fun a b => (Trip.created_at b <? Trip.created_at a)%Z)
    (trip_rows db).

Definition list_str_eqb (a b : list str) : bool :=
  if list_eq_dec str_eq_dec a b then true else false.

(** Assigning [s.visited] and [s.planned] and committing: the row is
    written when a column changed, and then [onupdate] sets
    [updated_at]. *)
Definition commit_state (db : DB) (s : AppState.t)
           (visited planned : list str) (now : datetime) : DB :=
  let dirty :=
    negb (list_str_eqb visited (AppState.visited s)
          && list_str_eqb planned (AppState.planned s)) in
  {| state_row :=
       Some {| AppState.id := AppState.id s;
               AppState.visited := visited;
               AppState.planned := planned;
               AppState.created_at := AppState.created_at s;
               AppState.updated_at :=
                 if dirty then now else AppState.updated_at s |};
     trip_rows := trip_rows db |}.

(** The primary key the database gives a new trip. *)
Definition next_trip_id (rows : list Trip.t) : Z :=
  (1 + fold_left (fun m t => Z.max m (Trip.id t)) rows 0)%Z.

(* ------------------------------------------------------------------ *)
(** * API: state *)
(* ------------------------------------------------------------------ *)

(** The payload's members, [None] for one that is no list. *)
Definition api_set_state `{HashOrder} (db : DB) (now : datetime)
           (visited planned : option (list str)) : DB * option response :=
  match visited, planned with
  | Some visited, Some planned =>
      let (db, s) := _ensure_state_row db now in
      let visited := _uniq_sorted visited in
      let planned := _uniq_sorted planned in
      (commit_state db s visited planned now,
       Some {| status := 200; json := BState visited planned |})
  | _, _ =>
      (db, Some {| status := 400;
                   json := BError (lit "visited/planned must be lists") |})
  end.

(* ------------------------------------------------------------------ *)
(** * API: trips *)
(* ------------------------------------------------------------------ *)

(** The members of the payload of [POST /api/trips]: [None] for a missing
    or null text, and for [cities] and [companions] a value that is no
    list. *)
Record trip_payload := {
  p_country : option str;
  p_start_date : option str;
  p_end_date : option str;
  p_cities : option (list str);
  p_companions : option (list str);
  p_notes : option str
}.

(** [x or ""] *)
Definition or_empty (x : option str) : str :=
  match x with Some s => s | None => [] end.

Definition api_add_trip `{HashOrder} `{DateParser} (db : DB) (now : datetime)
           (payload : trip_payload) : DB * option response :=
  let country := strip (or_empty (p_country payload)) in
  if negb (truthy country) then
    (db, Some {| status := 400; json := BError (lit "country is required") |})
  else
    match _parse_date_yyyy_mm_dd (p_start_date payload) with
    | None => (db, None)
    | Some start_date =>
    match _parse_date_yyyy_mm_dd (p_end_date payload) with
    | None => (db, None)
    | Some end_date =>
    let notes := strip (or_empty (p_notes payload)) in
    match p_cities payload, p_companions payload with
    | Some cities, Some companions =>
        let t := {| Trip.id := next_trip_id (trip_rows db);
                    Trip.country := country;
                    Trip.start_date := start_date;
                    Trip.end_date := end_date;
                    Trip.cities := _uniq_sorted cities;
                    Trip.companions := _uniq_sorted companions;
                    Trip.notes := notes;
                    Trip.created_at := now |} in
        let db := {| state_row := state_row db;
                     trip_rows := trip_rows db ++ [t] |} in
        let (db, s) := _ensure_state_row db now in
        let db :=
          if negb (str_in country (AppState.visited s)) then
            commit_state db s
              (_uniq_sorted (AppState.visited s ++ [country]))
              (filter (fun c => negb (str_eqb c country)) (AppState.planned s))
              now
          else db in
        (db, Some {| status := 200; json := BTrip (Trip.id t) |})
    | _, _ =>
        (db, Some {| status := 400;
                     json := BError (lit "cities/companions must be lists") |})
    end
    end
    end.

(** For a [trip_id] that the database can hold as an integer; see
    [api_delete_trip_any_id] for the others. *)
Definition api_delete_trip (db : DB) (trip_id : Z) : DB * option response :=
  if existsb (fun t => (Trip.id t =? trip_id)%Z) (trip_rows db) then
    ({| state_row := state_row db;
        trip_rows :=
          filter (fun t => negb (Trip.id t =? trip_id)%Z) (trip_rows db) |},
     Some {| status := 200; json := BOk |})
  else
    (db, Some {| status := 404; json := BError (lit "trip not found") |}).

(* ------------------------------------------------------------------ *)
(** * API: suggestions *)
(* ------------------------------------------------------------------ *)

(** The preference document of one trip (lines 247-254). *)
Definition trip_doc (t : Trip.t) : str :=
  strip
    (join (lit " ")
       [ strip (Trip.country t);
         join (lit " ") (Trip.cities t);
         strip (Trip.notes t);
         join (lit " ") (Trip.companions t) ]).

(** The loop that fills [visited_docs] (lines 245-256). *)
Definition build_visited_docs (trips : list Trip.t) : list str :=
  fold_left
    (fun visited_docs t =>
       let doc := trip_doc t in
       if truthy doc then visited_docs ++ [doc] else visited_docs)
    trips [].

(** The loops that fill [candidates] (lines 269-272). *)
Definition build_candidates (planned : list str)
           (country_cities : dict (list str)) : list Candidate.t :=
  fold_left
    (fun candidates country =>
       fold_left
         (fun candidates city =>
            candidates
              ++ [ {| Candidate.country := country;
                      Candidate.city := city;
                      Candidate.doc := country ++ lit " " ++ city |} ])
         (dict_get_default country_cities country [])
         candidates)
    planned [].

Definition no_candidates_note : str :=
  lit "No candidates found for your planned countries. Add cities in static/data/country_cities.json.".

(** ["No past trips yet — showing starter cities."] *)
Definition starter_reason : str :=
  lit "No past trips yet " ++ [8212%N] ++ lit " showing starter cities.".

Definition starter_suggestion (c : Candidate.t) : Suggestion.t :=
  {| Suggestion.city := Candidate.city c;
     Suggestion.score := float_0_10;
     Suggestion.reason := starter_reason |}.

(** [out.setdefault(k, []).append(x)] *)
Definition setdefault_append {V} (out : dict (list V)) (k : str) (x : V)
  : dict (list V) :=
  match dict_get out k with
  | Some l => dict_set out k (l ++ [x])
  | None => dict_set out k [x]
  end.

(** [for k in out: out[k] = out[k][:8]] *)
Definition cap {V} (out : dict (list V)) : dict (list V) :=
  fold_left
    (fun out k => dict_set out k (firstn 8 (dict_get_default out k [])))
    (dict_keys out) out.

(** The fallback without travel history (lines 285-296). *)
Definition starter_suggestions (candidates : list Candidate.t)
  : dict (list Suggestion.t) :=
  cap (fold_left
         (fun out c =>
            setdefault_append out (Candidate.country c) (starter_suggestion c))
         candidates []).

Definition scored_suggestion (c : Candidate.t) (score : Q) : Suggestion.t :=
  {| Suggestion.city := Candidate.city c;
     Suggestion.score := score;
     Suggestion.reason :=
       lit "Matches your travel profile (score " ++ format_2f score
         ++ lit ")." |}.

(** [scored.sort(key=lambda x: x[1], reverse=True)] *)
Definition sort_scored (scored : list (Candidate.t * Q))
  : list (Candidate.t * Q) :=
  stable_sort (fun a b => float_ltb (snd b) (snd a)) scored.

(** One round of the loop of lines 317-330. *)
Definition top_step (out : dict (list Suggestion.t)) (x : Candidate.t * Q)
  : dict (list Suggestion.t) :=
  let (c, score) := x in
  let country := Candidate.country c in
  let out := if negb (dict_mem out country) then dict_set out country []
             else out in
  let bucket := dict_get_default out country [] in
  if (8 <=? length bucket)%nat then out
  else dict_set out country (bucket ++ [scored_suggestion c score]).

(** Top per country (lines 313-330). *)
Definition top_per_country (candidates : list Candidate.t) (sims : list Q)
  : dict (list Suggestion.t) :=
  let scored := combine candidates sims in
  fold_left top_step (sort_scored scored) [].

Definition missing_catalog_error : str :=
  lit "Missing or empty static/data/country_cities.json".

Definition api_suggestions `{HashOrder} `{Scorer} (db : DB) (now : datetime)
           (file : catalog_file) : DB * option response :=
  let (db, s) := _ensure_state_row db now in
  let planned := AppState.planned s in
  let trips := query_trips db in
  let visited_docs := build_visited_docs trips in
  let country_cities := _load_country_city_catalog file in
  if negb (truthy country_cities) then
    (db, Some {| status := 400; json := BError missing_catalog_error |})
  else
    let candidates := build_candidates planned country_cities in
    if negb (truthy candidates) then
      (db, Some {| status := 200;
                   json := BSuggestions [] (Some no_candidates_note) |})
    else if negb (truthy visited_docs) then
      (db, Some {| status := 200;
                   json := BSuggestions (starter_suggestions candidates) None |})
    else
      let candidate_docs := map Candidate.doc candidates in
      match tfidf_cosine visited_docs candidate_docs with
      | None => (db, None)
      | Some sims =>
          (db, Some {| status := 200;
                       json := BSuggestions
                                 (top_per_country candidates sims) None |})
      end.

(* ------------------------------------------------------------------ *)
(** * Notions the properties are stated with *)
(* ------------------------------------------------------------------ *)

(** A string is trimmed when [strip] leaves it as it is. *)
Definition trimmed (s : str) : Prop := strip s = s.

(** The values that [_uniq_sorted] puts into the set. *)
Definition kept (values : list str) : list str :=
  map strip (filter (fun v => truthy (strip v)) values).

(** The candidate of a country and a city. *)
Definition candidate (country city : str) : Candidate.t :=
  {| Candidate.country := country;
     Candidate.city := city;
     Candidate.doc := country ++ lit " " ++ city |}.

(** The candidates of one country, in the order of the list. *)
Definition of_country (k : str) (l : list Candidate.t) : list Candidate.t :=
  filter (fun c => str_eqb (Candidate.country c) k) l.

(** The scored candidates of one country, in the order of the list. *)
Definition scored_of_country (k : str) (l : list (Candidate.t * Q))
  : list (Candidate.t * Q) :=
  filter (fun x => str_eqb (Candidate.country (fst x)) k) l.

(** The relation [sort_scored] sorts by: the higher score first. *)
Definition higher (a b : Candidate.t * Q) : bool := float_ltb (snd b) (snd a).

(** No country is planned twice. *)
Definition planned_unique (db : DB) : Prop :=
  match state_row db with
  | Some s => NoDup (AppState.planned s)
  | None => True
  end.

(** What a request reads: the planned countries, the profile documents
    and the candidates. *)
Definition planned_of (db : DB) (now : datetime) : list str :=
  AppState.planned (snd (_ensure_state_row db now)).

Definition profile_of (db : DB) : list str :=
  build_visited_docs (query_trips db).

Definition candidates_of `{HashOrder} (db : DB) (now : datetime)
           (file : catalog_file) : list Candidate.t :=
  build_candidates (planned_of db now) (_load_country_city_catalog file).

(** Made of whitespace only. *)
Definition blank (s : str) : Prop := Forall (fun c => isspace c = true) s.

(** [s.split()]: the words of a string, which whitespace separates. *)
Fixpoint split_from (word : str) (s : str) : list str :=
  match s with
  | [] => if truthy word then [word] else []
  | c :: s' =>
      if isspace c
      then (if truthy word then [word] else []) ++ split_from [] s'
      else split_from (word ++ [c]) s'
  end.

Definition split (s : str) : list str := split_from [] s.

(* ------------------------------------------------------------------ *)
(** * Sample data

    A small database and catalog on which the model is run, with
    stand-ins for the two libraries: they let the examples compute, and
    nothing is proved from what they return. *)
(* ------------------------------------------------------------------ *)

(** The share of the characters of a document that the profile has. *)
Definition char_overlap (profile d : str) : Q :=
  Z.of_nat (length (filter (fun c => existsb (N.eqb c) profile) d))
  # Pos.of_succ_nat (length d).

Instance char_overlap_scorer : Scorer.
Proof.
  refine {| tfidf_cosine :=
              fun visited_docs candidate_docs =>
                Some (map (char_overlap (concat visited_docs)) candidate_docs) |}.
  intros v c sims [= <-]. apply length_map.
Defined.

(** A parser that reads no date. *)
Instance no_dates : DateParser := {| strptime_ymd := fun _ => None |}.

Definition sample_file : catalog_file :=
  File [ (lit "Spain",
          JList (map lit [ "Seville"; "Granada"; "Madrid"; "Valencia";
                           "Bilbao"; "Toledo"; "Cordoba"; "Malaga";
                           "Girona"; "Cadiz"; " Granada " ]%string));
         (lit "France", JList (map lit [ "Paris"; "Lyon" ]%string));
         (lit "Atlantis", JOther) ].

Definition sample_trip : Trip.t :=
  {| Trip.id := 1;
     Trip.country := lit "Spain";
     Trip.start_date := None;
     Trip.end_date := None;
     Trip.cities := [lit "Granada"];
     Trip.companions := [];
     Trip.notes := lit "tapas";
     Trip.created_at := 10%Z |}.

Definition sample_state (visited planned : list str) : AppState.t :=
  {| AppState.id := 1;
     AppState.visited := visited;
     AppState.planned := planned;
     AppState.created_at := 0%Z;
     AppState.updated_at := 0%Z |}.

(** Spain is visited, and planned again. *)
Definition sample_db : DB :=
  {| state_row :=
       Some (sample_state [lit "Spain"] [lit "France"; lit "Spain"]);
     trip_rows := [sample_trip] |}.

(** No trip yet. *)
Definition fresh_db (planned : list str) : DB :=
  {| state_row := Some (sample_state [] planned); trip_rows := [] |}.

(** A catalog with one country and two cities. *)
Definition small_file : catalog_file :=
  File [ (lit "Spain", JList [lit "Madrid"; lit "Granada"]) ].

Definition spain_payload : trip_payload :=
  {| p_country := Some (lit "Spain");
     p_start_date := None;
     p_end_date := None;
     p_cities := Some [lit "Granada"];
     p_companions := Some [];
     p_notes := Some (lit "tapas") |}.

(** The database after two requests: a trip to Spain is added, and then
    Spain is set as visited and planned. *)
Definition replanned_db : DB :=
  fst (api_set_state
         (fst (api_add_trip (fresh_db []) 10%Z spain_payload))
         15%Z (Some [lit "Spain"]) (Some [lit "Spain"])).

(** The same journey as [sample_trip], entered again later, with dates
    and another primary key. *)
Definition sample_trip_again : Trip.t :=
  {| Trip.id := 7;
     Trip.country := lit "Spain";
     Trip.start_date := Some {| year := 2024; month := 5; day := 1 |};
     Trip.end_date := Some {| year := 2024; month := 5; day := 9 |};
     Trip.cities := [lit "Granada"];
     Trip.companions := [];
     Trip.notes := lit "tapas";
     Trip.created_at := 12%Z |}.

(** [sample_db] with other keys, dates and times, and the visited list
    left empty. *)
Definition sample_db_again : DB :=
  {| state_row :=
       Some {| AppState.id := 1;
               AppState.visited := [];
               AppState.planned := [lit "France"; lit "Spain"];
               AppState.created_at := 3%Z;
               AppState.updated_at := 4%Z |};
     trip_rows := [sample_trip_again] |}.

(** A trip without cities, notes and companions, and one without
    anything. *)
Definition bare_trip : Trip.t :=
  {| Trip.id := 2;
     Trip.country := lit "Spain";
     Trip.start_date := None;
     Trip.end_date := None;
     Trip.cities := [];
     Trip.companions := [];
     Trip.notes := [];
     Trip.created_at := 11%Z |}.

Definition empty_trip : Trip.t :=
  {| Trip.id := 3;
     Trip.country := lit "  ";
     Trip.start_date := None;
     Trip.end_date := None;
     Trip.cities := [];
     Trip.companions := [];
     Trip.notes := [];
     Trip.created_at := 12%Z |}.

(* ------------------------------------------------------------------ *)
(** * The rest of the application *)
(* ------------------------------------------------------------------ *)

(** [date.isoformat()] and [datetime.isoformat()], of the [datetime]
    library. *)
Class IsoFormat := {
  date_isoformat : date -> str;
  datetime_isoformat : datetime -> str
}.

(** The trip dictionaries of [api_get_state]. *)
Module TripJson.
Record t := {
  id : Z;
  country : str;
  start_date : option str;
  end_date : option str;
  cities : list str;
  companions : list str;
  notes : str;
  created_at : str
}.
End TripJson.

(** The body of [GET /api/state]. *)
Record state_json := {
  j_visited : list str;
  j_planned : list str;
  j_trips : list TripJson.t
}.

Definition trip_json `{IsoFormat} (t : Trip.t) : TripJson.t :=
  {| TripJson.id := Trip.id t;
     TripJson.country := Trip.country t;
     TripJson.start_date := option_map date_isoformat (Trip.start_date t);
     TripJson.end_date := option_map date_isoformat (Trip.end_date t);
     TripJson.cities := Trip.cities t;
     TripJson.companions := Trip.companions t;
     TripJson.notes := Trip.notes t;
     TripJson.created_at := datetime_isoformat (Trip.created_at t) |}.

Definition api_get_state `{IsoFormat} (db : DB) (now : datetime)
  : DB * state_json :=
  let (db, s) := _ensure_state_row db now in
  let trips := query_trips db in
  (db, {| j_visited := AppState.visited s;
          j_planned := AppState.planned s;
          j_trips := map trip_json trips |}).

(** The tables as [db.create_all()] makes them. *)
Definition empty_db : DB := {| state_row := None; trip_rows := [] |}.

(** DB init (lines 338-340), on a new database file. *)
Definition init_db (now : datetime) : DB :=
  fst (_ensure_state_row empty_db now).

(** The requests of the API, and what each does to the database.  A
    [DeleteTrip] with an id above [max_rowid] raises before anything is
    written, so it leaves the database as [api_delete_trip] does for an
    id that no trip has. *)
Inductive request :=
| GetState
| SetState (visited planned : option (list str))
| AddTrip (payload : trip_payload)
| DeleteTrip (trip_id : Z)
| GetSuggestions (file : catalog_file).

Definition handle `{HashOrder} `{DateParser} `{Scorer} `{IsoFormat}
           (db : DB) (now : datetime) (r : request) : DB :=
  match r with
  | GetState => fst (api_get_state db now)
  | SetState visited planned => fst (api_set_state db now visited planned)
  | AddTrip payload => fst (api_add_trip db now payload)
  | DeleteTrip trip_id => fst (api_delete_trip db trip_id)
  | GetSuggestions file => fst (api_suggestions db now file)
  end.

(** The database after a list of requests, each with the clock's reading
    when it is served. *)
Definition run `{HashOrder} `{DateParser} `{Scorer} `{IsoFormat}
           (start : datetime) (requests : list (datetime * request)) : DB :=
  fold_left (fun db r => handle db (fst r) (snd r)) requests (init_db start).

(* ------------------------------------------------------------------ *)
(** * Further notions the properties are stated with *)
(* ------------------------------------------------------------------ *)

(** A list as [_uniq_sorted] leaves it: strictly increasing, of trimmed
    strings that are not empty. *)
Definition normalised (l : list str) : Prop :=
  StronglySorted (fun a b => str_ltb a b = true) l
  /\ forall x, In x l -> trimmed x /\ x <> [].

Definition wf_trip (t : Trip.t) : Prop :=
  (0 < Trip.id t)%Z
  /\ trimmed (Trip.country t) /\ Trip.country t <> []
  /\ normalised (Trip.cities t)
  /\ normalised (Trip.companions t)
  /\ trimmed (Trip.notes t).

Definition wf_db (db : DB) : Prop :=
  (exists s, state_row db = Some s
             /\ AppState.id s = 1%Z
             /\ normalised (AppState.visited s)
             /\ normalised (AppState.planned s))
  /\ Forall wf_trip (trip_rows db)
  /\ NoDup (map Trip.id (trip_rows db)).

(** The list that the catalog file gives a country: the last list among
    the members whose key trims to the country. *)
Fixpoint last_list (k : str) (data : dict json_value) : option (list str) :=
  match data with
  | [] => None
  | (k', v) :: r =>
      match last_list k r with
      | Some items => Some items
      | None =>
          match v with
          | JList items => if str_eqb (strip k') k then Some items else None
          | JOther => None
          end
      end
  end.

(** A stand-in for [isoformat]: the fields and the clock reading in
    decimal. *)
Instance plain_isoformat : IsoFormat :=
  {| date_isoformat :=
       fun d => str_of_N (Z.to_N (year d)) ++ lit "-"
                ++ str_of_N (Z.to_N (month d)) ++ lit "-"
                ++ str_of_N (Z.to_N (day d));
     datetime_isoformat := fun t => str_of_N (Z.to_N t) |}.


(* ------------------------------------------------------------------ *)
(** * Inputs on which a request raises *)
(* ------------------------------------------------------------------ *)



(** The largest integer of SQLite. *)
Definition max_rowid : Z := (2 ^ 63 - 1)%Z.

(** [api_delete_trip] on any id that the route [<int:trip_id>] accepts:
    binding an id above [max_rowid] in [Trip.query.get] raises
    ([OverflowError]), before anything is written. *)
Definition api_delete_trip_any_id (db : DB) (trip_id : Z)
  : DB * option response :=
  if (trip_id <=? max_rowid)%Z then api_delete_trip db trip_id
  else (db, None).

(* ------------------------------------------------------------------ *)
(** * Cosine similarity *)
(* ------------------------------------------------------------------ *)




(* ------------------------------------------------------------------ *)
(** * Cosine similarity in double precision *)
(* ------------------------------------------------------------------ *)













(* ------------------------------------------------------------------ *)
(** * The model at work *)
(* ------------------------------------------------------------------ *)

Example strip_example : strip (lit "  Costa  Rica ") = lit "Costa  Rica".
Proof. reflexivity. Qed.

Example join_example :
  join (lit " ") [lit "Spain"; []; lit "tapas"; []] = lit "Spain  tapas ".
Proof. reflexivity. Qed.

Example uniq_sorted_example :
  _uniq_sorted (map lit [ "b"; " a"; "b "; ""; "  "; "B"; "ab" ]%string)
  = map lit [ "B"; "a"; "ab"; "b" ]%string.
Proof. reflexivity. Qed.

Example uniq_sorted_example_reversed :
  @_uniq_sorted reverse_insertion_order
    (map lit [ "b"; " a"; "b "; ""; "  "; "B"; "ab" ]%string)
  = map lit [ "B"; "a"; "ab"; "b" ]%string.
Proof. reflexivity. Qed.

Example format_2f_examples :
  format_2f (1 # 8) = lit "0.12"
  /\ format_2f (3 # 8) = lit "0.38"
  /\ format_2f float_0_10 = lit "0.10"
  /\ format_2f 1 = lit "1.00"
  /\ format_2f (999 # 1000) = lit "1.00"
  /\ format_2f (12345 # 100) = lit "123.45".
Proof. repeat split; reflexivity. Qed.

Example load_catalog_example :
  _load_country_city_catalog sample_file
  = [ (lit "Spain",
       map lit [ "Bilbao"; "Cadiz"; "Cordoba"; "Girona"; "Granada"; "Madrid";
                 "Malaga"; "Seville"; "Toledo"; "Valencia" ]%string);
      (lit "France", map lit [ "Lyon"; "Paris" ]%string) ].
Proof. reflexivity. Qed.

Example trip_doc_example : trip_doc sample_trip = lit "Spain Granada tapas".
Proof. reflexivity. Qed.

Example build_candidates_example :
  map Candidate.doc
      (build_candidates [lit "Spain"; lit "Atlantis"]
                        (_load_country_city_catalog small_file))
  = [lit "Spain Granada"; lit "Spain Madrid"].
Proof. reflexivity. Qed.

(** A planned country that the catalog does not have: success, an empty
    mapping and the note. *)
Example unknown_country_example :
  snd (api_suggestions (fresh_db [lit "Nowhereland"]) 20%Z sample_file)
  = Some {| status := 200;
            json := BSuggestions [] (Some no_candidates_note) |}.
Proof. reflexivity. Qed.

(** Adding a trip to a new country moves it from planned to visited. *)
Example add_trip_example :
  state_row (fst (api_add_trip (fresh_db [lit "Spain"; lit "France"]) 10%Z
                    spain_payload))
  = Some {| AppState.id := 1;
            AppState.visited := [lit "Spain"];
            AppState.planned := [lit "France"];
            AppState.created_at := 0%Z;
            AppState.updated_at := 10%Z |}.
Proof. reflexivity. Qed.

Example replanned_db_example :
  option_map (fun s => (AppState.visited s, AppState.planned s))
             (state_row replanned_db)
  = Some ([lit "Spain"], [lit "Spain"])
  /\ map trip_doc (trip_rows replanned_db) = [lit "Spain Granada tapas"].
Proof. split; reflexivity. Qed.

(* ------------------------------------------------------------------ *)
(** * Facts about the stable sort *)
(* ------------------------------------------------------------------ *)

Section StableSortFacts.
Variable A : Type.
Variable before : A -> A -> bool.

Local Abbreviation ins := (insert before).
Local Abbreviation sort := (stable_sort before).
Local Abbreviation ord := (ordered before).

Lemma insert_perm x l : Permutation (x :: l) (ins x l).
Proof.
  induction l as [|y r IH]; simpl; [reflexivity|].
  destruct (before y x); [|reflexivity].
  rewrite perm_swap. now constructor.
Qed.

Lemma stable_sort_perm l : Permutation l (sort l).
Proof.
  induction l as [|x r IH]; simpl; [constructor|].
  rewrite <- insert_perm. now constructor.
Qed.

Lemma stable_sort_length l : length (sort l) = length l.
Proof. symmetry. apply Permutation_length, stable_sort_perm. Qed.

Lemma stable_sort_In l x : In x (sort l) <-> In x l.
Proof.
  split; apply Permutation_in;
    [symmetry|]; apply stable_sort_perm.
Qed.

(** The order properties of [<]: a strict weak order. *)
Hypothesis before_irrefl : forall a, before a a = false.
Hypothesis before_trans :
  forall a b c, before a b = true -> before b c = true -> before a c = true.
Hypothesis before_cotrans :
  forall a b c, before a c = true -> before a b = true \/ before b c = true.

Lemma before_asym a b : before a b = true -> before b a = false.
Proof.
  intros H. destruct (before b a) eqn:E; [|reflexivity].
  rewrite <- (before_irrefl a). symmetry. eauto.
Qed.

Lemma insert_ordered x l : ord l -> ord (ins x l).
Proof.
  unfold ordered in *. induction 1 as [|y r Hr IH Hy]; simpl.
  - repeat constructor.
  - destruct (before y x) eqn:E.
    + constructor; [assumption|].
      apply Forall_forall. intros z Hz.
      apply (Permutation_in _ (Permutation_sym (insert_perm x r))) in Hz.
      destruct Hz as [<-|Hz]; [now apply before_asym|].
      rewrite Forall_forall in Hy. now apply Hy.
    + constructor; [now constructor|].
      constructor; [assumption|].
      apply Forall_forall. intros z Hz.
      rewrite Forall_forall in Hy. specialize (Hy z Hz).
      destruct (before z x) eqn:Ez; [|reflexivity].
      destruct (before_cotrans y Ez); congruence.
Qed.

Lemma stable_sort_ordered l : ord (sort l).
Proof.
  induction l; simpl; [constructor|now apply insert_ordered].
Qed.

(** Stability: sorting commutes with taking a sublist by a predicate. *)
Lemma insert_filter p x l :
  ord l ->
  filter p (ins x l) =
  if p x then ins x (filter p l) else filter p l.
Proof.
  unfold ordered in *. induction 1 as [|y r Hr IH Hy]; simpl.
  - now destruct (p x).
  - destruct (before y x) eqn:E; simpl.
    + rewrite IH. destruct (p y), (p x); simpl; rewrite ?E; reflexivity.
    + destruct (p x) eqn:Px, (p y) eqn:Py; simpl; rewrite ?E; try reflexivity.
      clear IH. induction r as [|z r IHr]; simpl; [reflexivity|].
      inversion Hy as [|? ? Hz Hy']; subst.
      inversion Hr as [|? ? Hr' Hzr]; subst.
      destruct (p z); simpl; [|now apply IHr].
      destruct (before z x) eqn:Ez; [|reflexivity].
      destruct (before_cotrans y Ez); congruence.
Qed.

Lemma stable_sort_filter p l :
  filter p (sort l) = sort (filter p l).
Proof.
  induction l as [|x r IH]; simpl; [reflexivity|].
  rewrite insert_filter by apply stable_sort_ordered.
  rewrite IH. now destruct (p x).
Qed.

(** A list that is already in order is left as it is. *)
Lemma stable_sort_id l : ord l -> sort l = l.
Proof.
  unfold ordered in *. induction 1 as [|x r Hr IH Hx]; simpl; [reflexivity|].
  rewrite IH. destruct r as [|y r']; simpl; [reflexivity|].
  inversion Hx; subst. now rewrite H1.
Qed.
End StableSortFacts.

(** With a total order, the list in order is unique among its
    permutations: the result of sorting does not depend on the order in
    which the elements were handed over. *)
Section SortTotal.
Variable A : Type.
Variable before : A -> A -> bool.
Hypothesis before_total :
  forall a b, before a b = false -> before b a = false -> a = b.

Lemma ordered_perm_eq l1 :
  forall l2, ordered before l1 -> ordered before l2 ->
             Permutation l1 l2 -> l1 = l2.
Proof.
  unfold ordered.
  induction l1 as [|x r1 IH]; intros l2 H1 H2 P.
  - apply Permutation_nil in P. now subst.
  - destruct l2 as [|y r2];
      [apply Permutation_sym, Permutation_nil in P; discriminate|].
    inversion H1 as [|? ? S1 F1]; inversion H2 as [|? ? S2 F2]; subst.
    rewrite Forall_forall in F1, F2.
    assert (x = y) as ->.
    { assert (Hx : In x (y :: r2)) by (eapply Permutation_in; [exact P|now left]).
      assert (Hy : In y (x :: r1))
        by (eapply Permutation_in; [exact (Permutation_sym P)|now left]).
      destruct Hx as [E|Hx]; [now subst|].
      destruct Hy as [E|Hy]; [now subst|].
      apply before_total; auto. }
    f_equal. apply IH; auto. eapply Permutation_cons_inv; eassumption.
Qed.
End SortTotal.

(** ** The order of strings *)

Lemma str_ltb_irrefl a : str_ltb a a = false.
Proof.
  induction a as [|x a IH]; simpl; [reflexivity|].
  now rewrite N.ltb_irrefl, N.eqb_refl.
Qed.

Lemma str_ltb_total a :
  forall b, str_ltb a b = false -> str_ltb b a = false -> a = b.
Proof.
  induction a as [|x a IH]; intros [|y b]; simpl; try congruence.
  destruct (N.ltb_spec x y); [congruence|].
  destruct (N.eqb_spec x y) as [->|Hne];
    [|destruct (N.ltb_spec y x); [congruence|lia]].
  rewrite N.ltb_irrefl, N.eqb_refl. intros. f_equal. auto.
Qed.

Lemma str_ltb_trans a :
  forall b c, str_ltb a b = true -> str_ltb b c = true -> str_ltb a c = true.
Proof.
  induction a as [|x a IH]; intros [|y b] [|z c]; simpl; try congruence.
  destruct (N.ltb_spec x y), (N.ltb_spec y z), (N.ltb_spec x z);
    try reflexivity; try lia;
    destruct (N.eqb_spec x y), (N.eqb_spec y z), (N.eqb_spec x z);
    try congruence; try lia; eauto.
Qed.

Lemma str_ltb_cotrans a b c :
  str_ltb a c = true -> str_ltb a b = true \/ str_ltb b c = true.
Proof.
  intros H.
  destruct (str_ltb a b) eqn:Eab; [now left|].
  destruct (str_ltb b c) eqn:Ebc; [now right|].
  destruct (str_ltb b a) eqn:Eba.
  - assert (str_ltb b c = true) by (eapply str_ltb_trans; eassumption).
    congruence.
  - assert (a = b) by (apply str_ltb_total; assumption). congruence.
Qed.

Lemma str_eqb_eq a b : str_eqb a b = true <-> a = b.
Proof. unfold str_eqb. destruct (str_eq_dec a b); intuition congruence. Qed.

Lemma str_eqb_refl a : str_eqb a a = true.
Proof. now apply str_eqb_eq. Qed.

Lemma str_eqb_neq a b : str_eqb a b = false <-> a <> b.
Proof. unfold str_eqb. destruct (str_eq_dec a b); intuition congruence. Qed.

Lemma str_in_In x l : str_in x l = true <-> In x l.
Proof.
  unfold str_in. rewrite existsb_exists. split.
  - intros (y & Hy & E). apply str_eqb_eq in E. now subst.
  - intros H. exists x. split; [assumption|apply str_eqb_refl].
Qed.

Lemma str_in_not_In x l : str_in x l = false <-> ~ In x l.
Proof.
  rewrite <- str_in_In. destruct (str_in x l); intuition congruence.
Qed.

Lemma lstrip_idem s : lstrip (lstrip s) = lstrip s.
Proof.
  induction s as [|c s IH]; simpl; [reflexivity|].
  destruct (isspace c) eqn:E; [assumption|]. simpl. now rewrite E.
Qed.

Lemma lstrip_head s :
  match lstrip s with [] => True | c :: _ => isspace c = false end.
Proof.
  induction s as [|c s IH]; simpl; [exact I|].
  destruct (isspace c) eqn:E; [assumption|exact E].
Qed.

Lemma lstrip_snoc w c :
  isspace c = false -> lstrip (w ++ [c]) = lstrip w ++ [c].
Proof.
  intros Hc. induction w as [|d w IH]; simpl; [now rewrite Hc|].
  now destruct (isspace d).
Qed.

Lemma rstrip_cons c t : isspace c = false -> rstrip (c :: t) = c :: rstrip t.
Proof.
  intros Hc. unfold rstrip. simpl.
  now rewrite lstrip_snoc, rev_app_distr.
Qed.

(** Removing trailing whitespace does not uncover leading whitespace. *)
Lemma lstrip_rstrip s : lstrip (rstrip (lstrip s)) = rstrip (lstrip s).
Proof.
  pose proof (lstrip_head s) as Hh.
  destruct (lstrip s) as [|c t]; [reflexivity|].
  rewrite rstrip_cons by assumption. simpl. now rewrite Hh.
Qed.

Lemma strip_idem s : trimmed (strip s).
Proof.
  unfold trimmed, strip. rewrite lstrip_rstrip.
  unfold rstrip at 1. unfold rstrip. rewrite rev_involutive, lstrip_idem.
  reflexivity.
Qed.

(* ------------------------------------------------------------------ *)
(** * Facts about dictionaries *)
(* ------------------------------------------------------------------ *)

Section DictFacts.
Variable V : Type.
Implicit Types (d : dict V) (k : str) (v : V).

Lemma dict_get_set_same d k v : dict_get (dict_set d k v) k = Some v.
Proof.
  induction d as [|[k' v'] r IH]; simpl.
  - now rewrite str_eqb_refl.
  - destruct (str_eqb k k') eqn:E; simpl; rewrite E; auto.
Qed.

Lemma dict_get_set_other d k k' v :
  k' <> k -> dict_get (dict_set d k v) k' = dict_get d k'.
Proof.
  intros Hne. induction d as [|[k0 v0] r IH]; simpl.
  - apply str_eqb_neq in Hne. now rewrite Hne.
  - destruct (str_eqb k k0) eqn:E; simpl.
    + apply str_eqb_eq in E. subst k0.
      apply str_eqb_neq in Hne. now rewrite Hne.
    + now rewrite IH.
Qed.

Lemma dict_get_set d k k' v :
  dict_get (dict_set d k v) k' =
  if str_eqb k' k then Some v else dict_get d k'.
Proof.
  destruct (str_eqb k' k) eqn:E.
  - apply str_eqb_eq in E. subst. apply dict_get_set_same.
  - apply str_eqb_neq in E. now apply dict_get_set_other.
Qed.

Lemma dict_get_In_keys d k : dict_get d k <> None <-> In k (dict_keys d).
Proof.
  induction d as [|[k' v'] r IH]; simpl; [tauto|].
  destruct (str_eqb k k') eqn:E.
  - apply str_eqb_eq in E. subst. split; [now left|congruence].
  - apply str_eqb_neq in E. rewrite IH. intuition congruence.
Qed.

Lemma dict_get_In d k v : dict_get d k = Some v -> In (k, v) d.
Proof.
  induction d as [|[k' v'] r IH]; simpl; [discriminate|].
  destruct (str_eqb k k') eqn:E.
  - apply str_eqb_eq in E. intros [= ->]. subst. now left.
  - intros H. right. auto.
Qed.

(** A key that is there keeps its place; a new key goes to the end. *)
Lemma dict_keys_set d k v :
  dict_keys (dict_set d k v) =
  if dict_mem d k then dict_keys d else dict_keys d ++ [k].
Proof.
  unfold dict_mem. induction d as [|[k' v'] r IH]; simpl; [reflexivity|].
  destruct (str_eqb k k') eqn:E; simpl; [reflexivity|].
  rewrite IH. now destruct (dict_get r k).
Qed.

Lemma dict_mem_true d k : dict_mem d k = true <-> In k (dict_keys d).
Proof.
  rewrite <- dict_get_In_keys. unfold dict_mem.
  destruct (dict_get d k); intuition congruence.
Qed.

Lemma dict_keys_set_NoDup d k v :
  NoDup (dict_keys d) -> NoDup (dict_keys (dict_set d k v)).
Proof.
  intros Hd. rewrite dict_keys_set.
  destruct (dict_mem d k) eqn:E; [assumption|].
  apply NoDup_app; [assumption|repeat constructor; intros []|].
  intros x Hx [<-|[]]. apply dict_mem_true in Hx. congruence.
Qed.

Lemma truthy_false (A : Type) (l : list A) : truthy l = false <-> l = [].
Proof. destruct l; simpl; intuition congruence. Qed.

Lemma truthy_true (A : Type) (l : list A) : truthy l = true <-> l <> [].
Proof. destruct l; simpl; intuition congruence. Qed.
End DictFacts.

(* ------------------------------------------------------------------ *)
(** * Grouping by country *)
(* ------------------------------------------------------------------ *)

#[local] Arguments firstn : simpl never.
#[local] Arguments Nat.leb : simpl never.
#[local] Arguments Nat.sub : simpl never.

Lemma firstn_firstn_same (A : Type) n (l : list A) :
  firstn n (firstn n l) = firstn n l.
Proof. rewrite firstn_firstn. now rewrite Nat.min_id. Qed.

Section Grouping.
Variables X V : Type.
Variable key : X -> str.
Variable f : X -> V.

Lemma setdefault_append_get (out : dict (list V)) k k' x :
  dict_get (setdefault_append out k x) k' =
  if str_eqb k' k then Some (dict_get_default out k [] ++ [x])
  else dict_get out k'.
Proof.
  unfold setdefault_append, dict_get_default.
  destruct (dict_get out k); now rewrite dict_get_set.
Qed.

Lemma group_get l : forall (out : dict (list V)) k,
  dict_get
    (fold_left (fun out c => setdefault_append out (key c) (f c)) l out) k =
  let mine := filter (fun c => str_eqb (key c) k) l in
  if truthy mine then Some (dict_get_default out k [] ++ map f mine)
  else dict_get out k.
Proof.
  induction l as [|x r IH]; intros out k; simpl; [reflexivity|].
  rewrite IH. simpl. unfold dict_get_default at 1.
  rewrite !setdefault_append_get.
  destruct (str_eqb (key x) k) eqn:E; simpl.
  - apply str_eqb_eq in E. subst k. rewrite str_eqb_refl.
    rewrite <- app_assoc. simpl.
    destruct (filter _ r); simpl; [|reflexivity]. reflexivity.
  - apply str_eqb_neq in E.
    assert (E' : str_eqb k (key x) = false) by (apply str_eqb_neq; congruence).
    rewrite E'. reflexivity.
Qed.

Lemma cap_fold_get ks : forall (out : dict (list V)) k,
  dict_get
    (fold_left
       (fun out k => dict_set out k (firstn 8 (dict_get_default out k [])))
       ks out) k =
  if str_in k ks then Some (firstn 8 (dict_get_default out k []))
  else dict_get out k.
Proof.
  induction ks as [|k0 ks IH]; intros out k; simpl; [reflexivity|].
  rewrite IH. unfold dict_get_default at 1. rewrite !dict_get_set.
  destruct (str_eqb k k0) eqn:E; simpl.
  - apply str_eqb_eq in E. subst k0. rewrite firstn_firstn_same.
    now destruct (str_in k ks).
  - reflexivity.
Qed.

Lemma cap_get (out : dict (list V)) k :
  dict_get (cap out) k = option_map (firstn 8) (dict_get out k).
Proof.
  unfold cap. rewrite cap_fold_get. unfold dict_get_default.
  destruct (str_in k (dict_keys out)) eqn:E.
  - apply str_in_In, dict_get_In_keys in E.
    destruct (dict_get out k); [reflexivity|congruence].
  - apply str_in_not_In in E. rewrite <- dict_get_In_keys in E.
    destruct (dict_get out k); [|reflexivity].
    exfalso. apply E. discriminate.
Qed.
End Grouping.

(** What the fallback leaves under a country: the first eight of its
    candidates, in the order of the candidate list. *)
Lemma starter_suggestions_get candidates k :
  dict_get (starter_suggestions candidates) k =
  if truthy (of_country k candidates)
  then Some (map starter_suggestion (firstn 8 (of_country k candidates)))
  else None.
Proof.
  unfold starter_suggestions. rewrite cap_get, group_get. simpl.
  fold (of_country k candidates).
  destruct (truthy (of_country k candidates)); simpl; [|reflexivity].
  now rewrite firstn_map.
Qed.

(** What the loop of lines 317-330 leaves under a country. *)
Lemma top_fold_get l : forall out k,
  dict_get (fold_left top_step l out) k =
  let mine := scored_of_country k l in
  match dict_get out k with
  | Some b =>
      Some (b ++ map (fun x => scored_suggestion (fst x) (snd x))
                     (firstn (8 - length b) mine))
  | None =>
      if truthy mine
      then Some (map (fun x => scored_suggestion (fst x) (snd x))
                     (firstn 8 mine))
      else None
  end.
Proof.
  induction l as [|[c q] r IH]; intros out k; simpl.
  - destruct (dict_get out k); [|reflexivity].
    unfold scored_of_country. simpl. now rewrite firstn_nil, app_nil_r.
  - rewrite IH. clear IH. unfold top_step.
    remember (if negb (dict_mem out (Candidate.country c))
              then dict_set out (Candidate.country c) [] else out)
      as out1 eqn:Hout1.
    assert (G1 : forall k', dict_get out1 k' =
              if str_eqb k' (Candidate.country c)
              then Some (dict_get_default out (Candidate.country c) [])
              else dict_get out k').
    { intros k'. rewrite Hout1. unfold dict_mem, dict_get_default.
      destruct (str_eqb k' (Candidate.country c)) eqn:E.
      - apply str_eqb_eq in E. subst k'.
        destruct (dict_get out (Candidate.country c)) eqn:Eo; simpl;
          [exact Eo|apply dict_get_set_same].
      - destruct (dict_get out (Candidate.country c)); simpl;
          [reflexivity|]. now rewrite dict_get_set, E. }
    assert (B1 : dict_get_default out1 (Candidate.country c) [] =
                 dict_get_default out (Candidate.country c) []).
    { unfold dict_get_default at 1. now rewrite G1, str_eqb_refl. }
    rewrite B1. clear Hout1.
    remember (dict_get_default out (Candidate.country c) []) as b eqn:Hb.
    destruct (str_eqb (Candidate.country c) k) eqn:E; simpl.
    + apply str_eqb_eq in E. subst k.
      destruct (Nat.leb_spec 8 (length b)) as [Hfull|Hroom].
      * rewrite G1, str_eqb_refl.
        unfold dict_get_default in Hb.
        destruct (dict_get out (Candidate.country c)) eqn:Eo;
          subst b; [|simpl in Hfull; lia].
        replace (8 - length l)%nat with 0%nat by lia.
        now rewrite !firstn_O.
      * rewrite dict_get_set_same. rewrite length_app. simpl.
        rewrite <- app_assoc. simpl.
        unfold dict_get_default in Hb.
        destruct (dict_get out (Candidate.country c)) eqn:Eo; subst b.
        -- destruct (8 - length l)%nat as [|n] eqn:En; [lia|].
           replace (8 - (length l + 1))%nat with n by lia.
           now rewrite firstn_cons.
        -- reflexivity.
    + assert (E' : str_eqb k (Candidate.country c) = false).
      { apply str_eqb_neq. apply str_eqb_neq in E. congruence. }
      destruct (8 <=? length b)%nat.
      * rewrite G1, E'. reflexivity.
      * rewrite dict_get_set, E', G1, E'. reflexivity.
Qed.

(* ------------------------------------------------------------------ *)
(** * The order of scores *)
(* ------------------------------------------------------------------ *)

Lemma float_ltb_lt a b : float_ltb a b = true <-> a < b.
Proof.
  unfold float_ltb. rewrite negb_true_iff.
  destruct (Qle_bool b a) eqn:E.
  - apply Qle_bool_iff in E. split; [discriminate|].
    intros H. exfalso. now apply (Qlt_not_le _ _ H).
  - split; [intros _|reflexivity].
    apply Qnot_le_lt. intros H. apply Qle_bool_iff in H. congruence.
Qed.

Lemma float_ltb_ge a b : float_ltb a b = false <-> b <= a.
Proof.
  unfold float_ltb. rewrite negb_false_iff. apply Qle_bool_iff.
Qed.

Lemma higher_irrefl a : higher a a = false.
Proof. apply float_ltb_ge, Qle_refl. Qed.

Lemma higher_trans a b c :
  higher a b = true -> higher b c = true -> higher a c = true.
Proof.
  unfold higher. rewrite !float_ltb_lt. intros H1 H2.
  eapply Qlt_trans; eassumption.
Qed.

Lemma higher_cotrans a b c :
  higher a c = true -> higher a b = true \/ higher b c = true.
Proof.
  unfold higher. rewrite !float_ltb_lt. intros H.
  destruct (Qlt_le_dec (snd b) (snd a)) as [Hlt|Hle]; [now left|right].
  eapply Qlt_le_trans; eassumption.
Qed.

Lemma sort_scored_perm scored : Permutation scored (sort_scored scored).
Proof. apply stable_sort_perm. Qed.

Lemma sort_scored_ordered scored : ordered higher (sort_scored scored).
Proof.
  apply stable_sort_ordered;
    [apply higher_irrefl|apply higher_trans|apply higher_cotrans].
Qed.

Lemma sort_scored_filter p scored :
  filter p (sort_scored scored) = sort_scored (filter p scored).
Proof.
  apply stable_sort_filter;
    [apply higher_irrefl|apply higher_trans|apply higher_cotrans].
Qed.

(** In order means: scores never go up. *)
Lemma ordered_higher_descending l :
  ordered higher l <-> StronglySorted (fun a b => snd b <= snd a) l.
Proof.
  unfold ordered.
  split; induction 1 as [|x r Hr IH Hx]; constructor; auto;
    (eapply Forall_impl; [|exact Hx]); intros y Hy; unfold higher in *.
  - apply float_ltb_ge in Hy. exact Hy.
  - apply float_ltb_ge. exact Hy.
Qed.

(** Candidates with the same score are in order whatever their order. *)
Lemma ties_ordered q l :
  Forall (fun x => snd x == q) l -> ordered higher l.
Proof.
  unfold ordered. induction 1 as [|x r Hx Hr IH]; constructor; auto.
  eapply Forall_impl; [|exact Hr]. intros y Hy. unfold higher.
  apply float_ltb_ge. rewrite Hx, Hy. apply Qle_refl.
Qed.

(** Stability of [sort_scored]: candidates with equal scores keep the
    order they were generated in. *)
Lemma sort_scored_stable q scored :
  filter (fun x => Qeq_bool (snd x) q) (sort_scored scored) =
  filter (fun x => Qeq_bool (snd x) q) scored.
Proof.
  rewrite sort_scored_filter. apply stable_sort_id.
  apply (@ties_ordered q). apply Forall_forall. intros x Hx.
  apply filter_In in Hx. destruct Hx as [_ Hx]. now apply Qeq_bool_iff.
Qed.

Lemma truthy_sort_scored l : truthy (sort_scored l) = truthy l.
Proof.
  pose proof (stable_sort_length higher l) as Hlen. unfold sort_scored.
  fold higher. destruct l as [|x r]; [reflexivity|].
  destruct (stable_sort higher (x :: r)); [discriminate|reflexivity].
Qed.

(** What the ranking leaves under a country: the first eight of the
    country's scored candidates, once these are sorted. *)
Lemma top_per_country_get candidates sims k :
  dict_get (top_per_country candidates sims) k =
  let mine := scored_of_country k (combine candidates sims) in
  if truthy mine
  then Some (map (fun x => scored_suggestion (fst x) (snd x))
                 (firstn 8 (sort_scored mine)))
  else None.
Proof.
  unfold top_per_country. rewrite top_fold_get. simpl.
  unfold scored_of_country. rewrite sort_scored_filter.
  now rewrite truthy_sort_scored.
Qed.

(* ------------------------------------------------------------------ *)
(** * [_uniq_sorted] and the catalog *)
(* ------------------------------------------------------------------ *)

Lemma uniq_sorted_perm `{HashOrder} values :
  Permutation (set_iter (kept values)) (_uniq_sorted values).
Proof. apply stable_sort_perm. Qed.

Lemma uniq_sorted_In `{HashOrder} values x :
  In x (_uniq_sorted values) <->
  exists v, In v values /\ x = strip v /\ x <> [].
Proof.
  unfold _uniq_sorted. rewrite stable_sort_In, set_iter_In, in_map_iff.
  split.
  - intros (v & <- & Hv). apply filter_In in Hv. destruct Hv as [Hv Ht].
    exists v. repeat split; auto. now apply truthy_true.
  - intros (v & Hv & -> & Hne). exists v. split; [reflexivity|].
    apply filter_In. split; [assumption|]. now apply truthy_true.
Qed.

Lemma uniq_sorted_NoDup `{HashOrder} values : NoDup (_uniq_sorted values).
Proof.
  eapply Permutation_NoDup; [apply uniq_sorted_perm|apply set_iter_NoDup].
Qed.

Lemma uniq_sorted_ordered `{HashOrder} values :
  ordered str_ltb (_uniq_sorted values).
Proof.
  apply stable_sort_ordered;
    [apply str_ltb_irrefl|apply str_ltb_trans|apply str_ltb_cotrans].
Qed.

(** Sorted, and strictly so: each element is below all the later ones. *)
Lemma uniq_sorted_increasing `{HashOrder} values :
  StronglySorted (fun a b => str_ltb a b = true) (_uniq_sorted values).
Proof.
  pose proof (uniq_sorted_ordered values) as Ho.
  pose proof (uniq_sorted_NoDup values) as Hn.
  unfold ordered in Ho.
  induction Ho as [|x r Hr IH Hx]; constructor.
  - apply IH. now inversion Hn.
  - inversion Hn as [|? ? Hnx Hnr]; subst.
    rewrite Forall_forall in *. intros y Hy.
    destruct (str_ltb x y) eqn:E; [reflexivity|].
    exfalso. apply Hnx.
    assert (x = y) by (apply str_ltb_total; auto). now subst.
Qed.

Lemma uniq_sorted_trimmed `{HashOrder} values x :
  In x (_uniq_sorted values) -> trimmed x /\ x <> [].
Proof.
  rewrite uniq_sorted_In. intros (v & _ & -> & Hne).
  split; [apply strip_idem|assumption].
Qed.

(** The result does not depend on the order in which the set is
    iterated. *)
Lemma uniq_sorted_hash_independent (h1 h2 : HashOrder) values :
  @_uniq_sorted h1 values = @_uniq_sorted h2 values.
Proof.
  apply ordered_perm_eq with (before := str_ltb).
  - apply str_ltb_total.
  - apply uniq_sorted_ordered.
  - apply uniq_sorted_ordered.
  - apply NoDup_Permutation; try apply uniq_sorted_NoDup.
    intros x. now rewrite !uniq_sorted_In.
Qed.

Lemma load_catalog_hash_independent (h1 h2 : HashOrder) file :
  @_load_country_city_catalog h1 file = @_load_country_city_catalog h2 file.
Proof.
  destruct file as [|data]; simpl; [reflexivity|].
  generalize (@nil (str * list str)) as out.
  induction data as [|[k v] r IH]; intros out; simpl; [reflexivity|].
  destruct v as [items|]; [|apply IH].
  rewrite (uniq_sorted_hash_independent h1 h2). apply IH.
Qed.

(** Every list of the catalog comes out of [_uniq_sorted]. *)
Lemma load_catalog_values `{HashOrder} file k cities :
  dict_get (_load_country_city_catalog file) k = Some cities ->
  exists items, cities = _uniq_sorted items.
Proof.
  destruct file as [|data]; simpl; [discriminate|].
  assert (G : forall (out : dict (list str)),
             (forall k c, dict_get out k = Some c ->
                          exists items, c = _uniq_sorted items) ->
             forall k c,
               dict_get
                 (fold_left
                    (fun out kv =>
                       match snd kv with
                       | JList v => dict_set out (strip (fst kv)) (_uniq_sorted v)
                       | JOther => out
                       end) data out) k = Some c ->
               exists items, c = _uniq_sorted items).
  { induction data as [|[k0 v] r IH]; intros out Hout k1 c; simpl;
      [apply Hout|].
    apply IH. destruct v as [items|]; [|exact Hout].
    intros k2 c2. rewrite dict_get_set.
    destruct (str_eqb k2 (strip k0)); [|apply Hout].
    intros [= <-]. now exists items. }
  apply G. intros ? ? [=].
Qed.

Lemma catalog_cities_NoDup `{HashOrder} file k :
  NoDup (dict_get_default (_load_country_city_catalog file) k []).
Proof.
  unfold dict_get_default.
  destruct (dict_get _ k) as [c|] eqn:E; [|constructor].
  apply load_catalog_values in E. destruct E as [items ->].
  apply uniq_sorted_NoDup.
Qed.

(* ------------------------------------------------------------------ *)
(** * The two builders *)
(* ------------------------------------------------------------------ *)

Lemma fold_left_append (A B : Type) (g : A -> list B) l : forall acc,
  fold_left (fun acc x => acc ++ g x) l acc = acc ++ flat_map g l.
Proof.
  induction l as [|x r IH]; intros acc; simpl.
  - now rewrite app_nil_r.
  - now rewrite IH, app_assoc.
Qed.

Lemma flat_map_singleton (A B : Type) (g : A -> B) l :
  flat_map (fun x => [g x]) l = map g l.
Proof. induction l; simpl; congruence. Qed.

Lemma build_candidates_from planned country_cities : forall acc,
  fold_left
    (fun candidates country =>
       fold_left
         (fun candidates city => candidates ++ [candidate country city])
         (dict_get_default country_cities country [])
         candidates)
    planned acc =
  acc ++ flat_map
    (fun country =>
       map (candidate country) (dict_get_default country_cities country []))
    planned.
Proof.
  induction planned as [|c r IH]; intros acc; simpl.
  - now rewrite app_nil_r.
  - rewrite IH.
    rewrite (fold_left_append (fun city => [candidate c city])).
    now rewrite flat_map_singleton, app_assoc.
Qed.

Lemma build_candidates_flat_map planned country_cities :
  build_candidates planned country_cities =
  flat_map
    (fun country =>
       map (candidate country) (dict_get_default country_cities country []))
    planned.
Proof. apply (build_candidates_from planned country_cities []). Qed.

Lemma build_visited_docs_from trips : forall acc,
  fold_left
    (fun visited_docs t =>
       let doc := trip_doc t in
       if truthy doc then visited_docs ++ [doc] else visited_docs)
    trips acc =
  acc ++ filter (@truthy char) (map trip_doc trips).
Proof.
  induction trips as [|t r IH]; intros acc; simpl.
  - now rewrite app_nil_r.
  - rewrite IH. destruct (truthy (trip_doc t)); [|reflexivity].
    now rewrite <- app_assoc.
Qed.

Lemma build_visited_docs_filter trips :
  build_visited_docs trips = filter (@truthy char) (map trip_doc trips).
Proof. apply (build_visited_docs_from trips []). Qed.

(* ------------------------------------------------------------------ *)
(** * Words *)
(* ------------------------------------------------------------------ *)

Lemma lstrip_blank s : exists ws, blank ws /\ s = ws ++ lstrip s.
Proof.
  induction s as [|c s (ws & Hws & IH)]; simpl.
  - exists []. split; [constructor|reflexivity].
  - destruct (isspace c) eqn:E.
    + exists (c :: ws). split; [now constructor|]. simpl. now f_equal.
    + exists []. split; [constructor|reflexivity].
Qed.

Lemma rstrip_blank s : exists ws, blank ws /\ s = rstrip s ++ ws.
Proof.
  destruct (lstrip_blank (rev s)) as (ws & Hws & E).
  exists (rev ws). split; [now apply Forall_rev|].
  unfold rstrip. rewrite <- rev_app_distr, <- E. symmetry. apply rev_involutive.
Qed.

Lemma split_from_blank ws : blank ws -> forall word,
  split_from word ws = split_from word [].
Proof.
  induction 1 as [|c ws Hc Hws IH]; intros word; simpl; [reflexivity|].
  rewrite Hc, (IH []). simpl. apply app_nil_r.
Qed.

Lemma split_from_app_blank ws : blank ws -> forall a word,
  split_from word (a ++ ws) = split_from word a.
Proof.
  intros Hws. induction a as [|c a IH]; intros word; simpl.
  - now apply split_from_blank.
  - destruct (isspace c); now rewrite IH.
Qed.

Lemma split_blank_app ws : blank ws -> forall s,
  split (ws ++ s) = split s.
Proof.
  unfold split. induction 1 as [|c ws Hc Hws IH]; intros s; simpl;
    [reflexivity|]. now rewrite Hc, IH.
Qed.

Lemma split_strip s : split (strip s) = split s.
Proof.
  unfold strip.
  destruct (lstrip_blank s) as (ws1 & H1 & E1).
  destruct (rstrip_blank (lstrip s)) as (ws2 & H2 & E2).
  rewrite E1 at 2. rewrite split_blank_app by assumption.
  rewrite E2 at 2. unfold split. now rewrite split_from_app_blank.
Qed.

Lemma split_from_app_space a : forall word b,
  split_from word (a ++ 32%N :: b) = split_from word a ++ split b.
Proof.
  induction a as [|c a IH]; intros word b.
  - reflexivity.
  - cbn [app split_from]. destruct (isspace c); rewrite IH; [|reflexivity].
    now rewrite app_assoc.
Qed.

Lemma split_join parts : split (join (lit " ") parts) = flat_map split parts.
Proof.
  induction parts as [|p [|q r] IH].
  - reflexivity.
  - simpl. now rewrite app_nil_r.
  - change (join (lit " ") (p :: q :: r))
      with (p ++ 32%N :: join (lit " ") (q :: r)).
    unfold split at 1. rewrite split_from_app_space, IH. reflexivity.
Qed.

Lemma split_nil_blank s : split s = [] <-> blank s.
Proof.
  unfold split, blank. split.
  - assert (G : forall word, split_from word s = [] ->
                             Forall (fun c => isspace c = true) s).
    { induction s as [|c s IH]; intros word; simpl; [constructor|].
      destruct (isspace c) eqn:E.
      - intros Hs. apply app_eq_nil in Hs. destruct Hs as [_ Hs].
        constructor; eauto.
      - intros Hs. exfalso. revert Hs.
        assert (G : forall s w, w <> [] -> split_from w s <> []).
        { clear. induction s as [|d s IH]; intros w Hw; simpl.
          - destruct w; simpl; [congruence|discriminate].
          - destruct (isspace d).
            + destruct w; simpl; [congruence|discriminate].
            + apply IH. destruct w; discriminate. }
        apply G. destruct word; discriminate. }
    apply G.
  - intros Hs. now rewrite (split_from_blank Hs).
Qed.

Lemma strip_nil_blank s : strip s = [] <-> blank s.
Proof.
  rewrite <- split_nil_blank, <- split_strip. split.
  - now intros ->.
  - intros Hs. apply split_nil_blank in Hs.
    pose proof (strip_idem s) as Ht. unfold trimmed in Ht.
    destruct (strip s) as [|c r] eqn:E; [reflexivity|].
    exfalso. inversion Hs as [|? ? Hc _]; subst.
    unfold strip in E. pose proof (lstrip_rstrip s) as Hl. rewrite E in Hl.
    simpl in Hl. rewrite Hc in Hl.
    assert (Hlen : length (lstrip r) = length (c :: r)) by now rewrite Hl.
    assert (Hle : forall t, (length (lstrip t) <= length t)%nat).
    { induction t as [|d t IHt]; simpl; [lia|].
      destruct (isspace d); simpl; lia. }
    specialize (Hle r). simpl in Hlen. lia.
Qed.

(* ------------------------------------------------------------------ *)
(** * The branches of [api_suggestions] *)
(* ------------------------------------------------------------------ *)

Lemma ensure_state_row_trips db now :
  trip_rows (fst (_ensure_state_row db now)) = trip_rows db.
Proof. unfold _ensure_state_row. now destruct (state_row db). Qed.

Lemma query_trips_ensure db now :
  query_trips (fst (_ensure_state_row db now)) = query_trips db.
Proof. unfold query_trips. now rewrite ensure_state_row_trips. Qed.

Lemma build_candidates_no_catalog planned : build_candidates planned [] = [].
Proof.
  rewrite build_candidates_flat_map.
  induction planned; simpl; auto.
Qed.

(** The endpoint, one branch after the other. *)
Lemma api_suggestions_eq `{HashOrder} `{Scorer} db now file :
  api_suggestions db now file =
  (fst (_ensure_state_row db now),
   if negb (truthy (_load_country_city_catalog file)) then
     Some {| status := 400; json := BError missing_catalog_error |}
   else if negb (truthy (candidates_of db now file)) then
     Some {| status := 200;
             json := BSuggestions [] (Some no_candidates_note) |}
   else if negb (truthy (profile_of db)) then
     Some {| status := 200;
             json := BSuggestions
                       (starter_suggestions (candidates_of db now file))
                       None |}
   else
     match tfidf_cosine (profile_of db)
                        (map Candidate.doc (candidates_of db now file)) with
     | None => None
     | Some sims =>
         Some {| status := 200;
                 json := BSuggestions
                           (top_per_country (candidates_of db now file) sims)
                           None |}
     end).
Proof.
  unfold api_suggestions, candidates_of, planned_of, profile_of.
  rewrite <- (query_trips_ensure db now).
  destruct (_ensure_state_row db now) as [db' s]. simpl.
  destruct (truthy (_load_country_city_catalog file)); simpl; [|reflexivity].
  destruct (truthy (build_candidates _ _)); simpl; [|reflexivity].
  destruct (truthy (build_visited_docs _)); simpl; [|reflexivity].
  now destruct (tfidf_cosine _ _).
Qed.

Lemma candidates_need_catalog `{HashOrder} db now file :
  candidates_of db now file <> [] -> _load_country_city_catalog file <> [].
Proof.
  unfold candidates_of. intros Hc Hl. apply Hc. rewrite Hl.
  apply build_candidates_no_catalog.
Qed.

Lemma api_suggestions_scored `{HashOrder} `{Scorer} db now file sims :
  profile_of db <> [] ->
  candidates_of db now file <> [] ->
  tfidf_cosine (profile_of db) (map Candidate.doc (candidates_of db now file))
    = Some sims ->
  api_suggestions db now file =
    (fst (_ensure_state_row db now),
     Some {| status := 200;
             json := BSuggestions
                       (top_per_country (candidates_of db now file) sims)
                       None |}).
Proof.
  intros Hp Hc Hs. rewrite api_suggestions_eq, Hs.
  pose proof (candidates_need_catalog db now file Hc) as Hl.
  apply truthy_true in Hl, Hc, Hp. rewrite Hl, Hc, Hp. reflexivity.
Qed.

Lemma api_suggestions_cold `{HashOrder} `{Scorer} db now file :
  profile_of db = [] ->
  candidates_of db now file <> [] ->
  api_suggestions db now file =
    (fst (_ensure_state_row db now),
     Some {| status := 200;
             json := BSuggestions
                       (starter_suggestions (candidates_of db now file))
                       None |}).
Proof.
  intros Hp Hc. rewrite api_suggestions_eq, Hp.
  pose proof (candidates_need_catalog db now file Hc) as Hl.
  apply truthy_true in Hl, Hc. rewrite Hl, Hc. reflexivity.
Qed.

Lemma combine_filter_fst (A B : Type) (p : A -> bool) (l : list A) :
  forall (m : list B), length m = length l ->
  map fst (filter (fun x => p (fst x)) (combine l m)) = filter p l.
Proof.
  induction l as [|a l IH]; intros [|b m] Hlen; simpl in *;
    try discriminate; [reflexivity|].
  destruct (p a); simpl; rewrite IH; auto.
Qed.

(** With one similarity for each candidate, the scored candidates of a
    country are the candidates of the country. *)
Lemma scored_of_country_fst `{HashOrder} `{Scorer} db now file sims country :
  tfidf_cosine (profile_of db) (map Candidate.doc (candidates_of db now file))
    = Some sims ->
  map fst (scored_of_country country
             (combine (candidates_of db now file) sims))
  = of_country country (candidates_of db now file).
Proof.
  intros Hs. unfold scored_of_country, of_country.
  apply (combine_filter_fst
           (fun c => str_eqb (Candidate.country c) country)).
  rewrite (tfidf_cosine_length _ _ Hs). apply length_map.
Qed.

Lemma candidates_of_hash_independent (h1 h2 : HashOrder) db now file :
  @candidates_of h1 db now file = @candidates_of h2 db now file.
Proof.
  unfold candidates_of. now rewrite (load_catalog_hash_independent h1 h2).
Qed.

Lemma In_of_country k l c :
  In c (of_country k l) <-> In c l /\ Candidate.country c = k.
Proof. unfold of_country. rewrite filter_In, str_eqb_eq. tauto. Qed.

Lemma In_scored_of_country k l x :
  In x (scored_of_country k l) <-> In x l /\ Candidate.country (fst x) = k.
Proof. unfold scored_of_country. rewrite filter_In, str_eqb_eq. tauto. Qed.

Lemma In_firstn (A : Type) n (l : list A) x : In x (firstn n l) -> In x l.
Proof.
  intros Hx. rewrite <- (firstn_skipn n l). apply in_or_app. now left.
Qed.

Lemma firstn_8_not_nil (A : Type) (l : list A) : l <> [] -> firstn 8 l <> [].
Proof. destruct l; [congruence|discriminate]. Qed.

(** Every list of the output is made from candidates of its country, and
    is not empty. *)
Lemma suggestion_bucket_candidates `{HashOrder} `{Scorer}
      db now file db' st out note country bucket :
  api_suggestions db now file =
    (db', Some {| status := st; json := BSuggestions out note |}) ->
  dict_get out country = Some bucket ->
  bucket <> []
  /\ forall sg, In sg bucket ->
        exists c, In c (candidates_of db now file)
                  /\ Candidate.country c = country
                  /\ Candidate.city c = Suggestion.city sg.
Proof.
  rewrite api_suggestions_eq. intros Hres Hget.
  injection Hres as _ Hres.
  destruct (truthy (_load_country_city_catalog file)); simpl in Hres;
    [|discriminate].
  destruct (truthy (candidates_of db now file)); simpl in Hres;
    [|injection Hres as _ <- _; discriminate].
  destruct (truthy (profile_of db)); simpl in Hres.
  - destruct (tfidf_cosine _ _) as [sims|]; [|discriminate].
    injection Hres as _ <- _.
    rewrite top_per_country_get in Hget. cbv zeta in Hget.
    destruct (truthy (scored_of_country _ _)) eqn:Et; [|discriminate].
    injection Hget as <-. split.
    + intros Hnil. apply map_eq_nil in Hnil. revert Hnil.
      apply firstn_8_not_nil. apply truthy_true.
      now rewrite truthy_sort_scored.
    + intros sg Hsg. apply in_map_iff in Hsg.
      destruct Hsg as ([c q] & <- & Hx). apply In_firstn in Hx.
      apply (Permutation_in _ (Permutation_sym (sort_scored_perm _))) in Hx.
      apply In_scored_of_country in Hx. destruct Hx as [Hx <-].
      apply in_combine_l in Hx. now exists c.
  - injection Hres as _ <- _.
    rewrite starter_suggestions_get in Hget.
    destruct (truthy (of_country _ _)) eqn:Et; [|discriminate].
    injection Hget as <-. split.
    + intros Hnil. apply map_eq_nil in Hnil. revert Hnil.
      apply firstn_8_not_nil. now apply truthy_true.
    + intros sg Hsg. apply in_map_iff in Hsg.
      destruct Hsg as (c & <- & Hx). apply In_firstn in Hx.
      apply In_of_country in Hx. destruct Hx as [Hx <-]. now exists c.
Qed.

(** A candidate of a country with at most eight candidates is suggested,
    whatever the similarities are. *)
Lemma few_candidates_all_suggested `{HashOrder} `{Scorer}
      db now file sims c :
  profile_of db <> [] ->
  tfidf_cosine (profile_of db) (map Candidate.doc (candidates_of db now file))
    = Some sims ->
  In c (candidates_of db now file) ->
  (length (of_country (Candidate.country c) (candidates_of db now file)) <= 8)%nat ->
  exists out bucket sg,
    api_suggestions db now file =
      (fst (_ensure_state_row db now),
       Some {| status := 200; json := BSuggestions out None |})
    /\ dict_get out (Candidate.country c) = Some bucket
    /\ In sg bucket
    /\ Suggestion.city sg = Candidate.city c.
Proof.
  intros Hp Hs Hc Hlen.
  pose proof (scored_of_country_fst db now file (Candidate.country c) Hs)
    as Hfst.
  remember (scored_of_country (Candidate.country c)
              (combine (candidates_of db now file) sims)) as mine eqn:Hmine.
  assert (Hin : In c (map fst mine)).
  { rewrite Hfst. now apply In_of_country. }
  apply in_map_iff in Hin. destruct Hin as ([c' q] & Hc' & Hin).
  simpl in Hc'. subst c'.
  exists (top_per_country (candidates_of db now file) sims).
  exists (map (fun x => scored_suggestion (fst x) (snd x)) (sort_scored mine)).
  exists (scored_suggestion c q).
  split; [|split; [|split]].
  - apply api_suggestions_scored; auto.
    intros Hnil. rewrite Hnil in Hc. destruct Hc.
  - rewrite top_per_country_get. cbv zeta. rewrite <- Hmine.
    assert (Ht : truthy mine = true)
      by (apply truthy_true; intros ->; destruct Hin).
    rewrite Ht. rewrite firstn_all2; [reflexivity|].
    unfold sort_scored. rewrite stable_sort_length.
    rewrite <- (length_map fst mine), Hfst. exact Hlen.
  - apply (in_map (fun x => scored_suggestion (fst x) (snd x)) _ (c, q)).
    apply (Permutation_in _ (sort_scored_perm mine)). exact Hin.
  - reflexivity.
Qed.

(* ------------------------------------------------------------------ *)
(** * The catalog that is missing or empty *)
(* ------------------------------------------------------------------ *)

(** C3.  When the normalised catalog is empty - the file is missing, or
    it holds no list - the suggestions request ends with status 400 and
    the error body that names [static/data/country_cities.json], whatever
    the planned countries are; the body is not a success and carries no
    suggestions. *)
Theorem empty_catalog_is_client_error `{HashOrder} `{Scorer} db now file :
  _load_country_city_catalog file = [] ->
  api_suggestions db now file =
    (fst (_ensure_state_row db now),
     Some {| status := 400; json := BError missing_catalog_error |})
  /\ ok (BError missing_catalog_error) = false
  /\ (exists a b,
        missing_catalog_error
        = a ++ lit "static/data/country_cities.json" ++ b)
  /\ _load_country_city_catalog NoFile = [].
Proof.
  intros Hempty. rewrite api_suggestions_eq, Hempty. simpl.
  repeat split.
  exists (lit "Missing or empty "), []. reflexivity.
Qed.

Lemma empty_catalog_is_client_error_witness :
  planned_of sample_db 20%Z <> []
  /\ api_suggestions sample_db 20%Z NoFile =
       (sample_db,
        Some {| status := 400; json := BError missing_catalog_error |}).
Proof.
  split; [discriminate|].
  apply (empty_catalog_is_client_error sample_db 20%Z NoFile). reflexivity.
Defined.

(* ------------------------------------------------------------------ *)
(** * No planned country *)
(* ------------------------------------------------------------------ *)

(** C5, as stated, fails: with no planned country and the catalog file
    missing, the request is answered with the error of status 400, since
    the catalog is looked at before the planned countries are. *)
Lemma no_planned_countries_counterexample :
  exists db now file,
    planned_of db now = []
    /\ forall (h : HashOrder) (sk : Scorer),
         api_suggestions db now file =
           (db, Some {| status := 400; json := BError missing_catalog_error |}).
Proof.
  exists (fresh_db []), 20%Z, NoFile. split; reflexivity.
Qed.

(** C5, amended.  With no planned country and a catalog that is not
    empty, the request succeeds: status 200, an empty mapping of
    suggestions and the advisory note. *)
Theorem no_planned_countries_is_success `{HashOrder} `{Scorer} db now file :
  planned_of db now = [] ->
  _load_country_city_catalog file <> [] ->
  api_suggestions db now file =
    (fst (_ensure_state_row db now),
     Some {| status := 200;
             json := BSuggestions [] (Some no_candidates_note) |})
  /\ ok (BSuggestions [] (Some no_candidates_note)) = true.
Proof.
  intros Hp Hc. split; [|reflexivity].
  rewrite api_suggestions_eq.
  apply truthy_true in Hc. rewrite Hc. simpl.
  unfold candidates_of. rewrite Hp. reflexivity.
Qed.

Lemma no_planned_countries_is_success_witness :
  api_suggestions (fresh_db []) 20%Z sample_file =
    (fresh_db [],
     Some {| status := 200;
             json := BSuggestions [] (Some no_candidates_note) |}).
Proof.
  apply (no_planned_countries_is_success (fresh_db []) 20%Z sample_file).
  - reflexivity.
  - vm_compute. discriminate.
Defined.

(* ------------------------------------------------------------------ *)
(** * Without travel history *)
(* ------------------------------------------------------------------ *)

Lemma firstn_length_le8 (A : Type) (l : list A) : (length (firstn 8 l) <= 8)%nat.
Proof. rewrite length_firstn. apply Nat.le_min_l. Qed.

(** C2.  With an empty profile and a candidate list that is not empty,
    the request succeeds, and under each country it leaves the first
    eight of the country's candidates, in the order the candidates were
    generated in, each with the score [0.10] and the starter reason; a
    country without candidates is no key. *)
Theorem cold_start_suggestions `{HashOrder} `{Scorer} db now file :
  profile_of db = [] ->
  candidates_of db now file <> [] ->
  exists out,
    api_suggestions db now file =
      (fst (_ensure_state_row db now),
       Some {| status := 200; json := BSuggestions out None |})
    /\ (forall country,
          dict_get out country =
          let mine := of_country country (candidates_of db now file) in
          if truthy mine
          then Some (map starter_suggestion (firstn 8 mine))
          else None)
    /\ (forall country bucket,
          dict_get out country = Some bucket ->
          (length bucket <= 8)%nat
          /\ map Suggestion.city bucket =
             firstn 8 (map Candidate.city
                           (of_country country (candidates_of db now file)))
          /\ forall sg, In sg bucket ->
                         Suggestion.score sg = float_0_10
                         /\ Suggestion.reason sg = starter_reason).
Proof.
  intros Hp Hc.
  exists (starter_suggestions (candidates_of db now file)).
  split; [|split].
  - now apply api_suggestions_cold.
  - intros country. apply starter_suggestions_get.
  - intros country bucket. rewrite starter_suggestions_get.
    destruct (truthy (of_country country _)); [|discriminate].
    intros [= <-]. split; [|split].
    + rewrite length_map. apply firstn_length_le8.
    + rewrite firstn_map, !map_map. reflexivity.
    + intros sg Hsg. apply in_map_iff in Hsg.
      destruct Hsg as (c & <- & _). split; reflexivity.
Qed.

Lemma cold_start_suggestions_witness :
  exists out,
    api_suggestions (fresh_db [lit "Spain"; lit "France"]) 20%Z sample_file =
      (fresh_db [lit "Spain"; lit "France"],
       Some {| status := 200; json := BSuggestions out None |})
    /\ option_map (map Suggestion.city) (dict_get out (lit "France")) =
       Some [lit "Lyon"; lit "Paris"]
    /\ option_map (@length _) (dict_get out (lit "Spain")) = Some 8%nat.
Proof.
  destruct (cold_start_suggestions
              (fresh_db [lit "Spain"; lit "France"]) 20%Z sample_file)
    as (out & Hout & Hget & _).
  - reflexivity.
  - vm_compute. discriminate.
  - exists out. split; [exact Hout|].
    rewrite !Hget. split; vm_compute; reflexivity.
Defined.

(* ------------------------------------------------------------------ *)
(** * The ranking *)
(* ------------------------------------------------------------------ *)

Lemma ordered_firstn_skipn (A : Type) (before : A -> A -> bool) n l :
  ordered before l ->
  forall x y, In x (firstn n l) -> In y (skipn n l) -> before y x = false.
Proof.
  unfold ordered. intros Ho. revert n.
  induction Ho as [|a r Hr IH Ha]; intros n x y Hx Hy.
  - rewrite firstn_nil in Hx. destruct Hx.
  - destruct n as [|n]; [destruct Hx|]. simpl in Hx, Hy.
    destruct Hx as [<-|Hx]; [|eauto].
    rewrite Forall_forall in Ha. apply Ha.
    rewrite <- (firstn_skipn n r). apply in_or_app. now right.
Qed.

Lemma StronglySorted_firstn (A : Type) (R : A -> A -> Prop) n l :
  StronglySorted R l -> StronglySorted R (firstn n l).
Proof.
  intros Hs. revert n.
  induction Hs as [|a r Hr IH Ha]; intros [|n]; simpl; try constructor.
  - apply IH.
  - rewrite Forall_forall in *. intros x Hx. apply Ha.
    rewrite <- (firstn_skipn n r). apply in_or_app. now left.
Qed.

Lemma StronglySorted_map (A B : Type) (R : B -> B -> Prop) (g : A -> B) l :
  StronglySorted (fun a b => R (g a) (g b)) l -> StronglySorted R (map g l).
Proof.
  induction 1 as [|a r Hr IH Ha]; simpl; constructor; auto.
  rewrite Forall_forall in *. intros y Hy.
  apply in_map_iff in Hy. destruct Hy as (x & <- & Hx). auto.
Qed.

(** C1.  With a profile and a candidate list that are not empty, and the
    similarities [sims] that the scorer returns, the request succeeds.
    Write [mine] for the scored candidates of a country, in the order
    they were generated in, and [ranked] for [mine] sorted.  Then
    [ranked] is a rearrangement of [mine] in which scores never go up
    and candidates of equal score keep the order of [mine]; the list
    under the country is made of the first eight of [ranked], so it has
    at most eight entries, its scores never go up, and no candidate left
    out has a higher score than one taken; a country without candidates
    is no key. *)
Theorem ranked_top_eight_per_country `{HashOrder} `{Scorer} db now file sims :
  profile_of db <> [] ->
  candidates_of db now file <> [] ->
  tfidf_cosine (profile_of db) (map Candidate.doc (candidates_of db now file))
    = Some sims ->
  exists out,
    api_suggestions db now file =
      (fst (_ensure_state_row db now),
       Some {| status := 200; json := BSuggestions out None |})
    /\ forall country,
         let mine :=
           scored_of_country country (combine (candidates_of db now file) sims) in
         let ranked := sort_scored mine in
         map fst mine = of_country country (candidates_of db now file)
         /\ Permutation mine ranked
         /\ StronglySorted (fun a b => snd b <= snd a) ranked
         /\ (forall q, filter (fun x => Qeq_bool (snd x) q) ranked
                       = filter (fun x => Qeq_bool (snd x) q) mine)
         /\ (forall x y, In x (firstn 8 ranked) -> In y (skipn 8 ranked) ->
                         snd y <= snd x)
         /\ dict_get out country =
            (if truthy mine
             then Some (map (fun x => scored_suggestion (fst x) (snd x))
                            (firstn 8 ranked))
             else None)
         /\ forall bucket,
              dict_get out country = Some bucket ->
              (length bucket <= 8)%nat
              /\ StronglySorted
                   (fun a b => Suggestion.score b <= Suggestion.score a)
                   bucket.
Proof.
  intros Hp Hc Hs.
  exists (top_per_country (candidates_of db now file) sims).
  split.
  - now apply api_suggestions_scored.
  - intros country mine ranked.
    assert (Hdesc : StronglySorted (fun a b => snd b <= snd a) ranked)
      by (apply ordered_higher_descending, sort_scored_ordered).
    split; [|split; [|split; [|split; [|split; [|split]]]]].
    + now apply scored_of_country_fst.
    + apply sort_scored_perm.
    + exact Hdesc.
    + intros q. apply sort_scored_stable.
    + intros x y Hx Hy. apply float_ltb_ge.
      apply (ordered_firstn_skipn (before := higher) 8
               (sort_scored_ordered mine) x y Hx Hy).
    + apply top_per_country_get.
    + intros bucket Hb.
      rewrite top_per_country_get in Hb. cbv zeta in Hb.
      fold mine in Hb. fold ranked in Hb.
      destruct (truthy mine); [|discriminate Hb].
      injection Hb as <-. split.
      * rewrite length_map. apply firstn_length_le8.
      * apply StronglySorted_map. simpl.
        apply StronglySorted_firstn. exact Hdesc.
Qed.

Lemma ranked_top_eight_per_country_witness :
  exists out,
    api_suggestions sample_db 20%Z sample_file =
      (sample_db, Some {| status := 200; json := BSuggestions out None |})
    /\ option_map (map Suggestion.city) (dict_get out (lit "Spain")) =
       Some (map lit [ "Granada"; "Girona"; "Madrid"; "Cadiz"; "Malaga";
                       "Valencia"; "Cordoba"; "Bilbao" ]%string)
    /\ option_map (map Suggestion.score) (dict_get out (lit "France")) =
       Some [8 # 13; 5 # 12].
Proof.
  edestruct (ranked_top_eight_per_country sample_db 20%Z sample_file)
    as (out & Hout & Hspec).
  - vm_compute. discriminate.
  - vm_compute. discriminate.
  - vm_compute. reflexivity.
  - exists out. split; [exact Hout|].
    destruct (Hspec (lit "Spain")) as (_ & _ & _ & _ & _ & -> & _).
    destruct (Hspec (lit "France")) as (_ & _ & _ & _ & _ & -> & _).
    split; vm_compute; reflexivity.
Defined.

(* ------------------------------------------------------------------ *)
(** * The candidates *)
(* ------------------------------------------------------------------ *)

Lemma of_country_candidates country c cities :
  of_country country (map (candidate c) cities) =
  if str_eqb c country then map (candidate c) cities else [].
Proof.
  unfold of_country.
  induction cities as [|x r IH]; simpl; [now destruct (str_eqb c country)|].
  rewrite IH. now destruct (str_eqb c country).
Qed.

Lemma map_city_candidates c cities :
  map Candidate.city (map (candidate c) cities) = cities.
Proof. rewrite map_map. simpl. apply map_id. Qed.

Lemma NoDup_map_candidate c cities :
  NoDup cities -> NoDup (map (candidate c) cities).
Proof.
  induction 1 as [|x r Hx Hr IH]; simpl; constructor; auto.
  intros Hin. apply in_map_iff in Hin.
  destruct Hin as (y & [= ->] & Hy). contradiction.
Qed.

Lemma In_flat_map_candidates planned (cc : dict (list str)) x :
  In x (flat_map
          (fun country =>
             map (candidate country) (dict_get_default cc country []))
          planned) <->
  exists country city,
    In country planned /\ In city (dict_get_default cc country [])
    /\ x = candidate country city.
Proof.
  rewrite in_flat_map. split.
  - intros (country & Hc & Hx). apply in_map_iff in Hx.
    destruct Hx as (city & <- & Hcity). now exists country, city.
  - intros (country & city & Hc & Hcity & ->). exists country.
    split; [assumption|]. now apply in_map.
Qed.

(* ------------------------------------------------------------------ *)
(** * Which cities are suggested *)
(* ------------------------------------------------------------------ *)

Lemma In_candidates_of `{HashOrder} db now file c :
  In c (candidates_of db now file) ->
  In (Candidate.country c) (planned_of db now)
  /\ In (Candidate.city c)
        (dict_get_default (_load_country_city_catalog file)
                          (Candidate.country c) []).
Proof.
  unfold candidates_of. rewrite build_candidates_flat_map.
  rewrite In_flat_map_candidates.
  intros (country & city & Hc & Hcity & ->). now split.
Qed.

(** C4, amended.  Every suggestion of the output stands under a planned
    country and names a city that the catalog lists for that country.
    (Whether the traveler has been to the city plays no part.) *)
Theorem suggestions_are_catalog_cities `{HashOrder} `{Scorer}
        db now file db' st out note country bucket sg :
  api_suggestions db now file =
    (db', Some {| status := st; json := BSuggestions out note |}) ->
  dict_get out country = Some bucket ->
  In sg bucket ->
  In country (planned_of db now)
  /\ In (Suggestion.city sg)
        (dict_get_default (_load_country_city_catalog file) country []).
Proof.
  intros Hres Hget Hsg.
  destruct (suggestion_bucket_candidates _ _ _ _ Hres Hget) as [_ Hb].
  destruct (Hb sg Hsg) as (c & Hc & <- & <-).
  now apply In_candidates_of.
Qed.

Lemma suggestions_are_catalog_cities_witness :
  In (lit "France") (planned_of sample_db 20%Z)
  /\ In (lit "Lyon")
        (dict_get_default (_load_country_city_catalog sample_file)
                          (lit "France") []).
Proof.
  eapply (suggestions_are_catalog_cities sample_db 20%Z sample_file
            (lit "France")
            (scored_suggestion (candidate (lit "France") (lit "Lyon"))
                               (5 # 12))).
  - vm_compute. reflexivity.
  - vm_compute. reflexivity.
  - vm_compute. right. left. reflexivity.
Defined.

(** C4, as stated, fails.  A trip to Spain with the city Granada is
    added, then Spain is planned again; the catalog lists Madrid and
    Granada for Spain.  Whatever similarities the scorer returns, the
    suggestions under Spain name Granada, a city of that trip. *)
Lemma only_unvisited_cities_counterexample :
  exists db now file t,
    In t (trip_rows db)
    /\ In (lit "Granada") (Trip.cities t)
    /\ (forall (h : HashOrder) (sk : Scorer) sims,
          tfidf_cosine (profile_of db)
                       (map Candidate.doc (candidates_of db now file))
            = Some sims ->
          exists out bucket sg,
            api_suggestions db now file =
              (db, Some {| status := 200; json := BSuggestions out None |})
            /\ dict_get out (lit "Spain") = Some bucket
            /\ In sg bucket
            /\ Suggestion.city sg = lit "Granada")
    /\ exists out,
         @api_suggestions insertion_order char_overlap_scorer db now file =
           (db, Some {| status := 200; json := BSuggestions out None |})
         /\ option_map (map Suggestion.city) (dict_get out (lit "Spain"))
            = Some [lit "Granada"; lit "Madrid"].
Proof.
  exists replanned_db, 20%Z, small_file.
  exists (nth 0 (trip_rows replanned_db) sample_trip).
  split; [vm_compute; now left|].
  split; [vm_compute; now left|].
  split.
  - intros h sk sims Hs.
    assert (Hc : candidates_of replanned_db 20%Z small_file =
                 [ candidate (lit "Spain") (lit "Granada");
                   candidate (lit "Spain") (lit "Madrid") ]).
    { rewrite (candidates_of_hash_independent h insertion_order).
      vm_compute. reflexivity. }
    destruct (@few_candidates_all_suggested h sk replanned_db 20%Z
                small_file sims (candidate (lit "Spain") (lit "Granada")))
      as (out & bucket & sg & Hout & Hget & Hsg & Hcity);
      [vm_compute; discriminate|exact Hs|rewrite Hc; now left
      |rewrite Hc; vm_compute; lia|].
    exists out, bucket, sg. repeat split; assumption.
  - eexists. split; vm_compute; reflexivity.
Qed.

(* ------------------------------------------------------------------ *)
(** * The profile *)
(* ------------------------------------------------------------------ *)

(** C9.  The profile builder goes through the trips in their order and
    makes one document of each: the country, the cities, the notes and
    the companions joined with spaces, and trimmed.  So the words of the
    document are the words of the country, of the cities, of the notes
    and of the companions, in this order.  A document is dropped exactly
    when it is empty, which is when the trip has no word at all; the
    documents kept are trimmed and not empty.  No trips, no documents:
    the builder is a total function and fails on no input. *)
Theorem profile_builder_documents trips :
  build_visited_docs trips = filter (@truthy char) (map trip_doc trips)
  /\ (forall t,
        trip_doc t =
        strip (join (lit " ")
                 [ strip (Trip.country t); join (lit " ") (Trip.cities t);
                   strip (Trip.notes t); join (lit " ") (Trip.companions t) ]))
  /\ (forall t,
        split (trip_doc t) =
        split (Trip.country t) ++ flat_map split (Trip.cities t)
          ++ split (Trip.notes t) ++ flat_map split (Trip.companions t))
  /\ (forall t, trip_doc t = [] <-> split (trip_doc t) = [])
  /\ (forall doc, In doc (build_visited_docs trips) ->
                  doc <> [] /\ trimmed doc)
  /\ (length (build_visited_docs trips) <= length trips)%nat
  /\ build_visited_docs [] = [].
Proof.
  split; [apply build_visited_docs_filter|].
  split; [reflexivity|].
  split.
  { intros t. unfold trip_doc. rewrite split_strip, split_join. simpl.
    rewrite !split_strip, !split_join, app_nil_r. reflexivity. }
  split.
  { intros t. unfold trip_doc.
    rewrite strip_nil_blank, split_strip. symmetry. apply split_nil_blank. }
  split.
  { intros doc. rewrite build_visited_docs_filter, filter_In, in_map_iff.
    intros [(t & <- & _) Ht]. split; [now apply truthy_true|].
    apply strip_idem. }
  split; [|reflexivity].
  rewrite build_visited_docs_filter.
  rewrite <- (length_map trip_doc trips). apply filter_length_le.
Qed.

(* ------------------------------------------------------------------ *)
(** * Determinism *)
(* ------------------------------------------------------------------ *)

(** C8.  The response is a function of the planned countries, the
    profile documents and the catalog file alone.  Two requests that
    agree on these get the same response - the same keys in the same
    order, the same lists, scores and reasons - whatever else differs in
    the database (keys, dates and times of the rows, the visited list),
    whatever the clock shows, and whatever order the two processes
    iterate their sets in. *)
Theorem engine_is_deterministic (h1 h2 : HashOrder) (sk : Scorer)
        db1 db2 now1 now2 file :
  planned_of db1 now1 = planned_of db2 now2 ->
  profile_of db1 = profile_of db2 ->
  snd (@api_suggestions h1 sk db1 now1 file)
  = snd (@api_suggestions h2 sk db2 now2 file).
Proof.
  intros Hplanned Hprofile. rewrite !api_suggestions_eq. simpl.
  rewrite (load_catalog_hash_independent h1 h2 file).
  assert (Hc : @candidates_of h1 db1 now1 file = @candidates_of h2 db2 now2 file).
  { unfold candidates_of.
    now rewrite Hplanned, (load_catalog_hash_independent h1 h2 file). }
  now rewrite Hc, Hprofile.
Qed.

Lemma engine_is_deterministic_witness :
  snd (@api_suggestions insertion_order char_overlap_scorer
         sample_db 20%Z sample_file)
  = snd (@api_suggestions reverse_insertion_order char_overlap_scorer
           sample_db_again 99%Z sample_file).
Proof.
  apply (engine_is_deterministic insertion_order reverse_insertion_order
           char_overlap_scorer sample_db sample_db_again 20%Z 99%Z
           sample_file).
  - reflexivity.
  - vm_compute. reflexivity.
Defined.

(* ------------------------------------------------------------------ *)
(** * Adding a trip *)
(* ------------------------------------------------------------------ *)

Lemma ensure_state_row_snd db now rows :
  snd (_ensure_state_row {| state_row := state_row db; trip_rows := rows |} now)
  = snd (_ensure_state_row db now).
Proof. unfold _ensure_state_row. simpl. now destruct (state_row db). Qed.

Lemma ensure_state_row_row db now :
  state_row (fst (_ensure_state_row db now))
  = Some (snd (_ensure_state_row db now)).
Proof.
  unfold _ensure_state_row. now destruct (state_row db) eqn:E.
Qed.

Lemma list_str_eqb_eq a b : list_str_eqb a b = true <-> a = b.
Proof.
  unfold list_str_eqb.
  destruct (list_eq_dec str_eq_dec a b); intuition congruence.
Qed.

Lemma uniq_sorted_add `{HashOrder} visited country :
  strip country = country -> country <> [] ->
  In country (_uniq_sorted (visited ++ [country])).
Proof.
  intros Ht Hne. apply uniq_sorted_In. exists country.
  split; [apply in_or_app; right; now left|]. now split.
Qed.

(** The row of [app_state] after a trip was added. *)
Lemma api_add_trip_row `{HashOrder} `{DateParser} db now payload db' trip_id :
  api_add_trip db now payload =
    (db', Some {| status := 200; json := BTrip trip_id |}) ->
  let country := strip (or_empty (p_country payload)) in
  let s := snd (_ensure_state_row db now) in
  country <> []
  /\ state_row db' =
     Some (if str_in country (AppState.visited s) then s
           else {| AppState.id := AppState.id s;
                   AppState.visited :=
                     _uniq_sorted (AppState.visited s ++ [country]);
                   AppState.planned :=
                     filter (fun c => negb (str_eqb c country))
                            (AppState.planned s);
                   AppState.created_at := AppState.created_at s;
                   AppState.updated_at := now |}).
Proof.
  intros Hres country s. unfold api_add_trip in Hres.
  fold country in Hres.
  destruct (truthy country) eqn:Ec; simpl in Hres; [|discriminate].
  destruct (_parse_date_yyyy_mm_dd (p_start_date payload)); [|discriminate].
  destruct (_parse_date_yyyy_mm_dd (p_end_date payload)); [|discriminate].
  destruct (p_cities payload); [|discriminate].
  destruct (p_companions payload); [|discriminate].
  apply truthy_true in Ec. split; [exact Ec|].
  match type of Hres with
  | context [_ensure_state_row {| state_row := _; trip_rows := ?r |} now] =>
      pose proof (ensure_state_row_snd db now r) as Hs;
      pose proof (ensure_state_row_row
                    {| state_row := state_row db; trip_rows := r |} now) as Hr
  end.
  fold s in Hs.
  destruct (_ensure_state_row _ now) as [db1 s1]. simpl in Hs, Hr. subst s1.
  injection Hres as <- _.
  destruct (str_in country (AppState.visited s)) eqn:Ev; simpl;
    [exact Hr|].
  unfold commit_state. simpl. do 2 f_equal.
  assert (Hd : list_str_eqb (_uniq_sorted (AppState.visited s ++ [country]))
                            (AppState.visited s) = false).
  { destruct (list_str_eqb _ _) eqn:E; [|reflexivity].
    apply list_str_eqb_eq in E. apply str_in_not_In in Ev.
    exfalso. apply Ev. rewrite <- E.
    apply uniq_sorted_add; [apply strip_idem|exact Ec]. }
  rewrite Hd. reflexivity.
Qed.

Lemma planned_of_row db now s :
  state_row db = Some s -> planned_of db now = AppState.planned s.
Proof. unfold planned_of, _ensure_state_row. now intros ->. Qed.

(** C10, amended.  A trip to a country that is not in the visited list
    yet puts it there and takes it from the planned list: the visited
    list becomes [_uniq_sorted] of the old list and the country - so
    trimmed, without empty or repeated entries, and sorted - and the
    next suggestions have no key for the country.  The row's [id] and
    [created_at] stay; [updated_at] is set by the commit.  A trip to a
    country that is in the visited list already leaves the row as it
    is. *)
Theorem add_trip_state_effect `{HashOrder} `{DateParser}
        db now payload db' trip_id :
  api_add_trip db now payload =
    (db', Some {| status := 200; json := BTrip trip_id |}) ->
  let country := strip (or_empty (p_country payload)) in
  let s := snd (_ensure_state_row db now) in
  exists s',
    state_row db' = Some s'
    /\ AppState.id s' = AppState.id s
    /\ AppState.created_at s' = AppState.created_at s
    /\ (In country (AppState.visited s) -> s' = s)
    /\ (~ In country (AppState.visited s) ->
        AppState.visited s' = _uniq_sorted (AppState.visited s ++ [country])
        /\ In country (AppState.visited s')
        /\ (forall v, In v (AppState.visited s') <->
                      v = country
                      \/ exists w, In w (AppState.visited s)
                                   /\ v = strip w /\ v <> [])
        /\ StronglySorted (fun a b => str_ltb a b = true) (AppState.visited s')
        /\ NoDup (AppState.visited s')
        /\ (forall v, In v (AppState.visited s') -> trimmed v /\ v <> [])
        /\ AppState.planned s' =
           filter (fun c => negb (str_eqb c country)) (AppState.planned s)
        /\ ~ In country (AppState.planned s')
        /\ AppState.updated_at s' = now
        /\ forall (sk : Scorer) now' file db'' st out note,
             api_suggestions db' now' file =
               (db'', Some {| status := st; json := BSuggestions out note |}) ->
             dict_get out country = None).
Proof.
  intros Hres country s.
  destruct (api_add_trip_row _ _ _ Hres) as [Hne Hrow].
  fold country s in Hne, Hrow.
  assert (Htrim : strip country = country) by apply strip_idem.
  destruct (str_in country (AppState.visited s)) eqn:Ev.
  - exists s. split; [exact Hrow|].
    split; [reflexivity|]. split; [reflexivity|]. split; [reflexivity|].
    intros Hn. apply str_in_In in Ev. contradiction.
  - eexists. split; [exact Hrow|]. simpl.
    split; [reflexivity|]. split; [reflexivity|].
    apply str_in_not_In in Ev. split; [intros Hin; contradiction|].
    intros _.
    assert (Hnp : ~ In country
                    (filter (fun c => negb (str_eqb c country))
                            (AppState.planned s))).
    { intros Hin. apply filter_In in Hin. destruct Hin as [_ Hin].
      now rewrite str_eqb_refl in Hin. }
    split; [reflexivity|].
    split; [now apply uniq_sorted_add|].
    split.
    { intros v. rewrite uniq_sorted_In. split.
      - intros (w & Hw & -> & Hv). apply in_app_or in Hw.
        destruct Hw as [Hw|[<-|[]]]; [right; now exists w|now left].
      - intros [->|(w & Hw & -> & Hv)].
        + exists country. split; [apply in_or_app; right; now left|].
          now split.
        + exists w. split; [apply in_or_app; now left|]. now split. }
    split; [apply uniq_sorted_increasing|].
    split; [apply uniq_sorted_NoDup|].
    split; [intros v; apply uniq_sorted_trimmed|].
    split; [reflexivity|].
    split; [exact Hnp|].
    split; [reflexivity|].
    intros sk now' file db'' st out note Hsug.
    destruct (dict_get out country) as [bucket|] eqn:Eg; [|reflexivity].
    exfalso.
    destruct (suggestion_bucket_candidates _ _ _ _ Hsug Eg) as [Hb Hc].
    destruct bucket as [|sg r]; [congruence|].
    destruct (Hc sg (or_introl eq_refl)) as (c & Hin & Hcountry & _).
    apply In_candidates_of in Hin. destruct Hin as [Hin _].
    rewrite Hcountry in Hin.
    rewrite (@planned_of_row db' now' _ Hrow) in Hin. exact (Hnp Hin).
Qed.

Lemma add_trip_state_effect_witness :
  exists s',
    state_row
      (fst (api_add_trip (fresh_db [lit "Spain"; lit "France"]) 10%Z
              spain_payload)) = Some s'
    /\ AppState.visited s' = [lit "Spain"]
    /\ AppState.planned s' = [lit "France"]
    /\ AppState.updated_at s' = 10%Z.
Proof.
  destruct (@add_trip_state_effect insertion_order no_dates
              (fresh_db [lit "Spain"; lit "France"]) 10%Z spain_payload
              (fst (api_add_trip (fresh_db [lit "Spain"; lit "France"]) 10%Z
                      spain_payload))
              1%Z)
    as (s' & Hrow & _ & _ & _ & Hnew).
  - vm_compute. reflexivity.
  - destruct Hnew as (Hv & _ & _ & _ & _ & _ & Hp & _ & Hu & _).
    + vm_compute. intros [].
    + exists s'. split; [exact Hrow|]. rewrite Hv, Hp, Hu.
      repeat split; vm_compute; reflexivity.
Defined.

(** C10, as stated, fails.  Spain is in the visited list and in the
    planned list (set so through [api_set_state]); a trip to Spain is
    added.  Spain stays planned, and the next suggestions have the key
    Spain, whatever similarities the scorer returns. *)
Lemma add_trip_unplans_counterexample :
  exists db now payload db' trip_id file,
    @api_add_trip insertion_order no_dates db now payload =
      (db', Some {| status := 200; json := BTrip trip_id |})
    /\ strip (or_empty (p_country payload)) = lit "Spain"
    /\ In (lit "Spain") (planned_of db now)
    /\ In (lit "Spain") (planned_of db' now)
    /\ (forall (h : HashOrder) (sk : Scorer) sims,
          tfidf_cosine (profile_of db')
                       (map Candidate.doc (candidates_of db' now file))
            = Some sims ->
          exists out bucket,
            api_suggestions db' now file =
              (db', Some {| status := 200; json := BSuggestions out None |})
            /\ dict_get out (lit "Spain") = Some bucket)
    /\ exists out,
         @api_suggestions insertion_order char_overlap_scorer db' now file =
           (db', Some {| status := 200; json := BSuggestions out None |})
         /\ dict_keys out = [lit "Spain"].
Proof.
  exists replanned_db, 30%Z, spain_payload.
  exists (fst (@api_add_trip insertion_order no_dates replanned_db 30%Z
                 spain_payload)), 2%Z, small_file.
  split; [vm_compute; reflexivity|].
  split; [vm_compute; reflexivity|].
  split; [vm_compute; now left|].
  split; [vm_compute; now left|].
  split.
  - intros h sk sims Hs.
    set (db' := fst (@api_add_trip insertion_order no_dates replanned_db 30%Z
                       spain_payload)) in *.
    assert (Hc : candidates_of db' 30%Z small_file =
                 [ candidate (lit "Spain") (lit "Granada");
                   candidate (lit "Spain") (lit "Madrid") ]).
    { rewrite (candidates_of_hash_independent h insertion_order).
      vm_compute. reflexivity. }
    destruct (@few_candidates_all_suggested h sk db' 30%Z
                small_file sims (candidate (lit "Spain") (lit "Granada")))
      as (out & bucket & sg & Hout & Hget & _);
      [vm_compute; discriminate|exact Hs|rewrite Hc; now left
      |rewrite Hc; vm_compute; lia|].
    exists out, bucket. split; assumption.
  - eexists. split; vm_compute; reflexivity.
Qed.

(* ------------------------------------------------------------------ *)
(** * The planned list names no country twice

    The row is created with an empty planned list, [api_set_state]
    stores what [_uniq_sorted] returns, and [api_add_trip] only takes a
    country away: every request keeps [planned_unique]. *)
(* ------------------------------------------------------------------ *)

Lemma ensure_state_row_planned_unique db now :
  planned_unique db ->
  planned_unique (fst (_ensure_state_row db now))
  /\ NoDup (planned_of db now).
Proof.
  unfold planned_unique, planned_of, _ensure_state_row.
  destruct (state_row db) as [s|] eqn:E; simpl.
  - rewrite E. auto.
  - intros _. split; constructor.
Qed.

Lemma api_set_state_planned_unique `{HashOrder} db now visited planned :
  planned_unique db ->
  planned_unique (fst (api_set_state db now visited planned)).
Proof.
  intros Hu. unfold api_set_state.
  destruct visited as [v|], planned as [p|]; simpl; auto.
  destruct (_ensure_state_row db now) as [db1 s]. simpl.
  apply uniq_sorted_NoDup.
Qed.

Lemma api_add_trip_planned_unique `{HashOrder} `{DateParser} db now payload :
  planned_unique db ->
  planned_unique (fst (api_add_trip db now payload)).
Proof.
  intros Hu. unfold api_add_trip.
  destruct (truthy _); simpl; [|assumption].
  destruct (_parse_date_yyyy_mm_dd (p_start_date payload)); [|assumption].
  destruct (_parse_date_yyyy_mm_dd (p_end_date payload)); [|assumption].
  destruct (p_cities payload); [|assumption].
  destruct (p_companions payload); [|assumption].
  match goal with
  | |- context [_ensure_state_row ?d now] =>
      assert (Hu1 : planned_unique d) by exact Hu;
      destruct (ensure_state_row_planned_unique d now Hu1) as [Hu2 Hp];
      unfold planned_of in Hp;
      destruct (_ensure_state_row d now) as [db1 s]
  end.
  simpl in *. destruct (str_in _ _); simpl; [exact Hu2|].
  unfold planned_unique. simpl. now apply NoDup_filter.
Qed.

Lemma api_suggestions_planned_unique `{HashOrder} `{Scorer} db now file :
  planned_unique db ->
  planned_unique (fst (api_suggestions db now file)).
Proof.
  intros Hu. rewrite api_suggestions_eq. simpl.
  now apply ensure_state_row_planned_unique.
Qed.

Lemma api_delete_trip_planned_unique db trip_id :
  planned_unique db -> planned_unique (fst (api_delete_trip db trip_id)).
Proof.
  intros Hu. unfold api_delete_trip. now destruct (existsb _ _).
Qed.

(* ------------------------------------------------------------------ *)
(** * More about [_uniq_sorted] *)
(* ------------------------------------------------------------------ *)

Lemma increasing_ordered l :
  StronglySorted (fun a b => str_ltb a b = true) l -> ordered str_ltb l.
Proof.
  unfold ordered. induction 1 as [|x r Hr IH Hx]; constructor; auto.
  eapply Forall_impl; [|exact Hx]. intros y Hy.
  destruct (str_ltb y x) eqn:E; [|reflexivity].
  pose proof (@str_ltb_trans x y x Hy E) as Hxx.
  now rewrite str_ltb_irrefl in Hxx.
Qed.

Lemma increasing_NoDup l :
  StronglySorted (fun a b => str_ltb a b = true) l -> NoDup l.
Proof.
  induction 1 as [|x r Hr IH Hx]; constructor; auto.
  intros Hin. rewrite Forall_forall in Hx. specialize (Hx x Hin).
  now rewrite str_ltb_irrefl in Hx.
Qed.

Lemma increasing_unique l1 l2 :
  StronglySorted (fun a b => str_ltb a b = true) l1 ->
  StronglySorted (fun a b => str_ltb a b = true) l2 ->
  (forall x, In x l1 <-> In x l2) ->
  l1 = l2.
Proof.
  intros H1 H2 Hin.
  apply ordered_perm_eq with (before := str_ltb).
  - apply str_ltb_total.
  - now apply increasing_ordered.
  - now apply increasing_ordered.
  - apply NoDup_Permutation; auto using increasing_NoDup.
Qed.

Lemma uniq_sorted_normalised `{HashOrder} values :
  normalised (_uniq_sorted values).
Proof.
  split; [apply uniq_sorted_increasing|].
  intros x. apply uniq_sorted_trimmed.
Qed.

Lemma kept_normalised l : normalised l -> kept l = l.
Proof.
  intros [_ Hl]. unfold kept.
  induction l as [|x r IH]; simpl; [reflexivity|].
  destruct (Hl x (or_introl eq_refl)) as [Ht Hne].
  unfold trimmed in Ht. rewrite Ht.
  apply truthy_true in Hne. rewrite Hne. simpl. rewrite Ht. f_equal.
  apply IH. intros y Hy. apply Hl. now right.
Qed.

Lemma In_kept values x :
  In x (kept values) <-> exists v, In v values /\ x = strip v /\ x <> [].
Proof.
  unfold kept. rewrite in_map_iff. split.
  - intros (v & <- & Hv). apply filter_In in Hv. destruct Hv as [Hv Ht].
    exists v. repeat split; auto. now apply truthy_true.
  - intros (v & Hv & -> & Hne). exists v. split; [reflexivity|].
    apply filter_In. split; [assumption|]. now apply truthy_true.
Qed.

Lemma uniq_sorted_fixed `{HashOrder} l : normalised l -> _uniq_sorted l = l.
Proof.
  intros Hn. symmetry.
  apply increasing_unique;
    [apply Hn|apply uniq_sorted_increasing|].
  intros x. rewrite uniq_sorted_In, <- In_kept, (kept_normalised Hn).
  reflexivity.
Qed.

(** X1.  [_uniq_sorted values] is the one strictly increasing list whose
    elements are the trimmed values that are not empty: it is strictly
    increasing (so without repetition), an element of it is the trimmed
    form of a value and is not empty, every such string is an element,
    and any strictly increasing list with these elements is equal to
    it.  It is never longer than [values]. *)
Theorem uniq_sorted_characterisation `{HashOrder} values :
  StronglySorted (fun a b => str_ltb a b = true) (_uniq_sorted values)
  /\ (forall x, In x (_uniq_sorted values) <->
                exists v, In v values /\ x = strip v /\ x <> [])
  /\ (forall l, StronglySorted (fun a b => str_ltb a b = true) l ->
                (forall x, In x l <->
                           exists v, In v values /\ x = strip v /\ x <> []) ->
                l = _uniq_sorted values)
  /\ (length (_uniq_sorted values) <= length values)%nat.
Proof.
  split; [apply uniq_sorted_increasing|].
  split; [intros x; apply uniq_sorted_In|].
  split.
  - intros l Hl Hin. apply increasing_unique; auto.
    + apply uniq_sorted_increasing.
    + intros x. now rewrite Hin, uniq_sorted_In.
  - rewrite <- (Permutation_length (uniq_sorted_perm values)).
    assert (Hk : (length (kept values) <= length values)%nat).
    { unfold kept. rewrite length_map. apply filter_length_le. }
    assert (Hs : (length (set_iter (kept values)) <= length (kept values))%nat).
    { apply NoDup_incl_length; [apply set_iter_NoDup|].
      intros x. apply set_iter_In. }
    lia.
Qed.

(** X2.  The result of [_uniq_sorted] depends on nothing but the set of
    the trimmed, non-empty values: two lists that have the same such
    values - in any order, any number of times, with or without
    surrounding whitespace and empty entries - give the same list, also
    in two processes that iterate sets in different orders. *)
Theorem uniq_sorted_insensitive (h1 h2 : HashOrder) values1 values2 :
  (forall x, In x (kept values1) <-> In x (kept values2)) ->
  @_uniq_sorted h1 values1 = @_uniq_sorted h2 values2.
Proof.
  intros Hin. apply increasing_unique; try apply uniq_sorted_increasing.
  intros x. now rewrite !uniq_sorted_In, <- !In_kept.
Qed.

Lemma uniq_sorted_insensitive_witness :
  @_uniq_sorted insertion_order (map lit [ "b"; " a"; "b " ]%string)
  = @_uniq_sorted reverse_insertion_order (map lit [ "a "; ""; "b"; "a" ]%string).
Proof.
  apply (uniq_sorted_insensitive insertion_order reverse_insertion_order).
  vm_compute. intros x. tauto.
Defined.

(** X3.  Normalising twice is normalising once: [_uniq_sorted] returns a
    list that it leaves as it is, and so it leaves every list that is
    strictly increasing and made of trimmed, non-empty strings. *)
Theorem uniq_sorted_idempotent `{HashOrder} values :
  _uniq_sorted (_uniq_sorted values) = _uniq_sorted values
  /\ forall l, normalised l -> _uniq_sorted l = l.
Proof.
  split; [|intros l; apply uniq_sorted_fixed].
  apply uniq_sorted_fixed, uniq_sorted_normalised.
Qed.

(* ------------------------------------------------------------------ *)
(** * More about the catalog *)
(* ------------------------------------------------------------------ *)

Lemma load_fold_get `{HashOrder} data : forall (out : dict (list str)) k,
  dict_get
    (fold_left
       (fun out kv =>
          match snd kv with
          | JList v => dict_set out (strip (fst kv)) (_uniq_sorted v)
          | JOther => out
          end) data out) k =
  match last_list k data with
  | Some items => Some (_uniq_sorted items)
  | None => dict_get out k
  end.
Proof.
  induction data as [|[k' v] r IH]; intros out k; simpl; [reflexivity|].
  rewrite IH. destruct (last_list k r); [reflexivity|].
  destruct v as [items|]; [|reflexivity].
  rewrite dict_get_set.
  destruct (str_eqb k (strip k')) eqn:E.
  - apply str_eqb_eq in E. subst k. now rewrite str_eqb_refl.
  - assert (E' : str_eqb (strip k') k = false).
    { apply str_eqb_neq. apply str_eqb_neq in E. congruence. }
    now rewrite E'.
Qed.

Lemma load_fold_keys `{HashOrder} data : forall (out : dict (list str)),
  NoDup (dict_keys out) ->
  (forall k, In k (dict_keys out) -> trimmed k) ->
  let out' :=
    fold_left
      (fun out kv =>
         match snd kv with
         | JList v => dict_set out (strip (fst kv)) (_uniq_sorted v)
         | JOther => out
         end) data out in
  NoDup (dict_keys out') /\ forall k, In k (dict_keys out') -> trimmed k.
Proof.
  induction data as [|[k' v] r IH]; intros out Hnd Htr; simpl; [now split|].
  apply IH; destruct v as [items|]; simpl; auto.
  - now apply dict_keys_set_NoDup.
  - intros k. rewrite dict_keys_set.
    destruct (dict_mem out (strip k')); [apply Htr|].
    intros Hin. apply in_app_or in Hin.
    destruct Hin as [Hin|[<-|[]]]; [now apply Htr|apply strip_idem].
Qed.

(** X4.  Looking a country up in the loaded catalog gives the normalised
    form of the last list that the file has under a key that trims to
    the country.  So between two keys that differ in surrounding
    whitespace only the later one wins, a member whose value is no list
    is passed over and does not hide an earlier list, and a country
    without such a member is absent.  A missing file has no country. *)
Theorem load_catalog_lookup `{HashOrder} data country :
  dict_get (_load_country_city_catalog (File data)) country
  = option_map _uniq_sorted (last_list country data)
  /\ dict_get (_load_country_city_catalog NoFile) country = None.
Proof.
  split; [|reflexivity].
  simpl. rewrite load_fold_get. now destruct (last_list country data).
Qed.

(** X5.  The loaded catalog is normalised: no key occurs twice, every
    key is trimmed, and every list of cities is strictly increasing and
    made of trimmed names that are not empty - so no city is listed
    twice for a country. *)
Theorem load_catalog_normalised `{HashOrder} file :
  let country_cities := _load_country_city_catalog file in
  NoDup (dict_keys country_cities)
  /\ (forall country, In country (dict_keys country_cities) -> trimmed country)
  /\ (forall country cities,
        dict_get country_cities country = Some cities ->
        normalised cities /\ NoDup cities).
Proof.
  intros country_cities.
  assert (Hkeys : NoDup (dict_keys country_cities)
                  /\ forall k, In k (dict_keys country_cities) -> trimmed k).
  { destruct file as [|data]; [split; [constructor|intros k []]|].
    apply (load_fold_keys data []); [constructor|intros k []]. }
  destruct Hkeys as [Hnd Htr].
  split; [exact Hnd|]. split; [exact Htr|].
  intros country cities Hget. apply load_catalog_values in Hget.
  destruct Hget as [items ->].
  split; [apply uniq_sorted_normalised|apply uniq_sorted_NoDup].
Qed.

(* ------------------------------------------------------------------ *)
(** * More about the suggestions *)
(* ------------------------------------------------------------------ *)

(** The candidates of a country: the catalog's cities for it, once for
    each time the country is planned. *)
Lemma of_country_build_candidates planned (cc : dict (list str)) country :
  of_country country (build_candidates planned cc) =
  concat (repeat (map (candidate country) (dict_get_default cc country []))
                 (count_occ str_eq_dec planned country)).
Proof.
  rewrite build_candidates_flat_map.
  induction planned as [|c r IH]; simpl; [reflexivity|].
  unfold of_country in *. rewrite filter_app, IH.
  fold (of_country country (map (candidate c) (dict_get_default cc c []))).
  rewrite of_country_candidates.
  destruct (str_eq_dec c country) as [->|Hne].
  - now rewrite str_eqb_refl.
  - apply str_eqb_neq in Hne. now rewrite Hne.
Qed.

Lemma length_concat_repeat (A : Type) (l : list A) n :
  length (concat (repeat l n)) = (n * length l)%nat.
Proof.
  induction n as [|n IH]; simpl; [reflexivity|].
  now rewrite length_app, IH.
Qed.

Lemma length_of_country_candidates `{HashOrder} db now file country :
  length (of_country country (candidates_of db now file)) =
  (count_occ str_eq_dec (planned_of db now) country
   * length (dict_get_default (_load_country_city_catalog file) country []))%nat.
Proof.
  unfold candidates_of. rewrite of_country_build_candidates.
  now rewrite length_concat_repeat, length_map.
Qed.

(** What a successful response holds under a country, in either branch:
    the cities of the first eight of a rearrangement of the country's
    candidates. *)
Lemma suggestions_bucket_cities `{HashOrder} `{Scorer}
      db now file db' st out note country :
  api_suggestions db now file =
    (db', Some {| status := st; json := BSuggestions out note |}) ->
  exists arranged,
    Permutation (of_country country (candidates_of db now file)) arranged
    /\ option_map (map Suggestion.city) (dict_get out country) =
       if truthy arranged
       then Some (map Candidate.city (firstn 8 arranged))
       else None.
Proof.
  rewrite api_suggestions_eq. intros Hres. injection Hres as _ Hres.
  destruct (truthy (_load_country_city_catalog file)); simpl in Hres;
    [|discriminate].
  destruct (truthy (candidates_of db now file)) eqn:Ec; simpl in Hres.
  2:{ injection Hres as _ <- _. apply truthy_false in Ec. rewrite Ec.
      exists []. split; constructor. }
  destruct (truthy (profile_of db)); simpl in Hres.
  - destruct (tfidf_cosine _ _) as [sims|] eqn:Hs; [|discriminate].
    injection Hres as _ <- _.
    pose proof (scored_of_country_fst db now file country Hs) as Hfst.
    remember (scored_of_country country
                (combine (candidates_of db now file) sims)) as mine.
    exists (map fst (sort_scored mine)). split.
    + rewrite <- Hfst. apply Permutation_map, sort_scored_perm.
    + rewrite top_per_country_get. cbv zeta. rewrite <- Heqmine.
      rewrite <- truthy_sort_scored.
      assert (Ht : truthy (map fst (sort_scored mine))
                   = truthy (sort_scored mine))
        by now destruct (sort_scored mine).
      rewrite Ht. destruct (truthy (sort_scored mine)); [|reflexivity].
      cbn [option_map]. f_equal.
      rewrite firstn_map, !map_map. reflexivity.
  - injection Hres as _ <- _.
    exists (of_country country (candidates_of db now file)).
    split; [reflexivity|]. rewrite starter_suggestions_get.
    destruct (truthy (of_country _ _)); [|reflexivity].
    cbn [option_map]. now rewrite map_map.
Qed.

(** X6.  How many suggestions a country gets.  Let [n] be the number of
    the catalog's cities for the country, counted once for each time the
    country is planned.  In a successful response the country is a key
    exactly when [n] is not zero, and its list then has [min 8 n]
    entries: all the cities when there are at most eight, eight of them
    otherwise.  This holds with and without travel history. *)
Theorem suggestion_counts `{HashOrder} `{Scorer}
        db now file db' st out note country :
  api_suggestions db now file =
    (db', Some {| status := st; json := BSuggestions out note |}) ->
  let n :=
    (count_occ str_eq_dec (planned_of db now) country
     * length (dict_get_default (_load_country_city_catalog file) country []))%nat
  in
  match dict_get out country with
  | Some bucket => n <> 0%nat /\ length bucket = Nat.min 8 n
  | None => n = 0%nat
  end.
Proof.
  intros Hres n.
  destruct (suggestions_bucket_cities _ _ _ country Hres)
    as (arranged & Hperm & Hget).
  assert (Hn : length arranged = n).
  { rewrite <- (Permutation_length Hperm).
    apply length_of_country_candidates. }
  destruct (dict_get out country) as [bucket|]; cbn [option_map] in Hget.
  - destruct (truthy arranged) eqn:Et; [|discriminate].
    injection Hget as Hget. split.
    + rewrite <- Hn. apply truthy_true in Et. now destruct arranged.
    + rewrite <- (length_map Suggestion.city bucket), Hget, length_map.
      rewrite length_firstn. now rewrite Hn.
  - destruct (truthy arranged) eqn:Et; [discriminate|].
    apply truthy_false in Et. now rewrite <- Hn, Et.
Qed.

Lemma suggestion_counts_witness :
  exists out,
    api_suggestions sample_db 20%Z sample_file =
      (sample_db, Some {| status := 200; json := BSuggestions out None |})
    /\ match dict_get out (lit "Spain") with
       | Some bucket => length bucket = 8%nat
       | None => False
       end.
Proof.
  eexists. split; [vm_compute; reflexivity|].
  match goal with
  | |- match dict_get ?out _ with _ => _ end =>
      generalize (@suggestion_counts insertion_order char_overlap_scorer
                    sample_db 20%Z sample_file sample_db 200%nat out None
                    (lit "Spain") ltac:(vm_compute; reflexivity))
  end.
  cbv zeta. destruct (dict_get _ (lit "Spain")).
  - intros [_ ->]. reflexivity.
  - intros Hn. vm_compute in Hn. discriminate Hn.
Defined.

Lemma NoDup_firstn (A : Type) n (l : list A) : NoDup l -> NoDup (firstn n l).
Proof.
  intros Hl. rewrite <- (firstn_skipn n l) in Hl.
  now apply NoDup_app_remove_r in Hl.
Qed.

Lemma of_country_cities_NoDup `{HashOrder} db now file country :
  NoDup (planned_of db now) ->
  NoDup (map Candidate.city (of_country country (candidates_of db now file))).
Proof.
  intros Hnd. unfold candidates_of. rewrite of_country_build_candidates.
  destruct (count_occ str_eq_dec (planned_of db now) country)
    as [|[|n]] eqn:Ec.
  - constructor.
  - simpl. rewrite app_nil_r, map_city_candidates.
    apply catalog_cities_NoDup.
  - exfalso. rewrite (NoDup_count_occ str_eq_dec) in Hnd.
    specialize (Hnd country). lia.
Qed.

(** X7.  No city is suggested twice under a country: when the planned
    list names no country twice (which every request keeps, see
    [planned_unique]), the cities of each list of a successful response
    are distinct, with and without travel history. *)
Theorem no_city_suggested_twice `{HashOrder} `{Scorer}
        db now file db' st out note country bucket :
  planned_unique db ->
  api_suggestions db now file =
    (db', Some {| status := st; json := BSuggestions out note |}) ->
  dict_get out country = Some bucket ->
  NoDup (map Suggestion.city bucket).
Proof.
  intros Hu Hres Hget.
  destruct (ensure_state_row_planned_unique db now Hu) as [_ Hnd].
  destruct (suggestions_bucket_cities _ _ _ country Hres)
    as (arranged & Hperm & Hcities).
  rewrite Hget in Hcities. cbn [option_map] in Hcities.
  destruct (truthy arranged); [|discriminate].
  injection Hcities as ->. rewrite <- firstn_map. apply NoDup_firstn.
  apply (Permutation_NoDup (Permutation_map Candidate.city Hperm)).
  now apply of_country_cities_NoDup.
Qed.

Lemma no_city_suggested_twice_witness :
  NoDup (map lit [ "Granada"; "Girona"; "Madrid"; "Cadiz"; "Malaga";
                   "Valencia"; "Cordoba"; "Bilbao" ]%string).
Proof.
  apply (@no_city_suggested_twice insertion_order char_overlap_scorer
           sample_db 20%Z sample_file sample_db 200%nat
           (top_per_country (candidates_of sample_db 20%Z sample_file)
              (map (char_overlap (concat (profile_of sample_db)))
                   (map Candidate.doc
                        (candidates_of sample_db 20%Z sample_file))))
           None (lit "Spain")
           (map (fun c =>
                   scored_suggestion (candidate (lit "Spain") (lit (fst c)))
                                     (snd c))
                [ ("Granada", 13 # 14); ("Girona", 11 # 13);
                  ("Madrid", 11 # 13); ("Cadiz", 9 # 12);
                  ("Malaga", 9 # 13); ("Valencia", 10 # 15);
                  ("Cordoba", 9 # 14); ("Bilbao", 8 # 13) ]%string)).
  - vm_compute. repeat constructor; simpl; intuition discriminate.
  - vm_compute. reflexivity.
  - vm_compute. reflexivity.
Defined.



(* ------------------------------------------------------------------ *)
(** * The state endpoints *)
(* ------------------------------------------------------------------ *)

Lemma api_get_state_fst `{IsoFormat} db now :
  fst (api_get_state db now) = fst (_ensure_state_row db now).
Proof. unfold api_get_state. now destruct (_ensure_state_row db now). Qed.

Lemma ensure_state_row_existing db now s :
  state_row db = Some s -> _ensure_state_row db now = (db, s).
Proof. unfold _ensure_state_row. now intros ->. Qed.

(** X9.  The two reading requests write no data.  [GET /api/state] and
    [GET /api/suggestions] leave the trips as they are, and leave a
    database that has its state row exactly as it is; the only thing
    they can write is the missing state row, which is created with
    [id = 1] and empty visited and planned lists. *)
Theorem reading_requests_write_nothing `{HashOrder} `{Scorer} `{IsoFormat}
        db now file :
  trip_rows (fst (api_get_state db now)) = trip_rows db
  /\ trip_rows (fst (api_suggestions db now file)) = trip_rows db
  /\ (forall s, state_row db = Some s ->
                fst (api_get_state db now) = db
                /\ fst (api_suggestions db now file) = db)
  /\ (state_row db = None ->
      let s := {| AppState.id := 1; AppState.visited := [];
                  AppState.planned := []; AppState.created_at := now;
                  AppState.updated_at := now |} in
      state_row (fst (api_get_state db now)) = Some s
      /\ state_row (fst (api_suggestions db now file)) = Some s).
Proof.
  rewrite api_get_state_fst, api_suggestions_eq. simpl.
  rewrite ensure_state_row_trips.
  split; [reflexivity|]. split; [reflexivity|]. split.
  - intros s Hs. now rewrite (ensure_state_row_existing db now Hs).
  - intros Hnone. unfold _ensure_state_row. rewrite Hnone. now split.
Qed.

Lemma list_str_eqb_refl l : list_str_eqb l l = true.
Proof. now apply list_str_eqb_eq. Qed.

(** X10.  Setting the state and reading it back.  A [POST /api/state]
    with two lists answers with their normalised forms and stores
    exactly these; the trips are not touched; a following
    [GET /api/state] returns the same two lists and changes nothing; and
    posting the returned lists again changes nothing either. *)
Theorem set_state_round_trip `{HashOrder} `{IsoFormat}
        db now now' now'' visited planned :
  let v := _uniq_sorted visited in
  let p := _uniq_sorted planned in
  let db1 := fst (api_set_state db now (Some visited) (Some planned)) in
  snd (api_set_state db now (Some visited) (Some planned))
    = Some {| status := 200; json := BState v p |}
  /\ option_map (fun s => (AppState.visited s, AppState.planned s))
                (state_row db1) = Some (v, p)
  /\ trip_rows db1 = trip_rows db
  /\ fst (api_get_state db1 now') = db1
  /\ j_visited (snd (api_get_state db1 now')) = v
  /\ j_planned (snd (api_get_state db1 now')) = p
  /\ api_set_state db1 now'' (Some v) (Some p)
     = (db1, Some {| status := 200; json := BState v p |}).
Proof.
  intros v p db1. unfold db1, api_set_state.
  pose proof (ensure_state_row_trips db now) as Ht.
  destruct (_ensure_state_row db now) as [db0 s]. simpl in Ht. simpl.
  fold v p. split; [reflexivity|]. split; [reflexivity|].
  split; [exact Ht|].
  unfold api_get_state, _ensure_state_row. simpl.
  split; [reflexivity|]. split; [reflexivity|]. split; [reflexivity|].
  unfold v, p.
  rewrite !(uniq_sorted_fixed (uniq_sorted_normalised _)).
  unfold commit_state. simpl. rewrite !list_str_eqb_refl. reflexivity.
Qed.

(* ------------------------------------------------------------------ *)
(** * The trip endpoints *)
(* ------------------------------------------------------------------ *)

Lemma next_trip_id_above rows :
  (0 < next_trip_id rows)%Z
  /\ forall t, In t rows -> (Trip.id t < next_trip_id rows)%Z.
Proof.
  unfold next_trip_id.
  assert (G : forall m,
             (m <= fold_left (fun m t => Z.max m (Trip.id t)) rows m)%Z
             /\ forall t, In t rows ->
                  (Trip.id t
                   <= fold_left (fun m t => Z.max m (Trip.id t)) rows m)%Z).
  { induction rows as [|t r IH]; intros m; simpl; [split; [lia|tauto]|].
    destruct (IH (Z.max m (Trip.id t))) as [Hm Hr]. split; [lia|].
    intros t' [<-|Hin]; [lia|auto]. }
  destruct (G 0%Z) as [H0 Hr]. split; [lia|].
  intros t Hin. specialize (Hr t Hin). lia.
Qed.

(** What a successful [POST /api/trips] returns and stores. *)
Lemma api_add_trip_trip `{HashOrder} `{DateParser} db now payload db' trip_id :
  api_add_trip db now payload =
    (db', Some {| status := 200; json := BTrip trip_id |}) ->
  exists start_date end_date cities companions,
    _parse_date_yyyy_mm_dd (p_start_date payload) = Some start_date
    /\ _parse_date_yyyy_mm_dd (p_end_date payload) = Some end_date
    /\ p_cities payload = Some cities
    /\ p_companions payload = Some companions
    /\ trip_id = next_trip_id (trip_rows db)
    /\ trip_rows db' =
       trip_rows db ++
       [ {| Trip.id := trip_id;
            Trip.country := strip (or_empty (p_country payload));
            Trip.start_date := start_date;
            Trip.end_date := end_date;
            Trip.cities := _uniq_sorted cities;
            Trip.companions := _uniq_sorted companions;
            Trip.notes := strip (or_empty (p_notes payload));
            Trip.created_at := now |} ].
Proof.
  intros Hres. unfold api_add_trip in Hres.
  destruct (truthy (strip (or_empty (p_country payload))));
    simpl in Hres; [|discriminate].
  destruct (_parse_date_yyyy_mm_dd (p_start_date payload)) as [sd|];
    [|discriminate].
  destruct (_parse_date_yyyy_mm_dd (p_end_date payload)) as [ed|];
    [|discriminate].
  destruct (p_cities payload) as [cities|]; [|discriminate].
  destruct (p_companions payload) as [companions|]; [|discriminate].
  exists sd, ed, cities, companions.
  match type of Hres with
  | context [_ensure_state_row ?d now] =>
      pose proof (ensure_state_row_trips d now) as Ht;
      destruct (_ensure_state_row d now) as [db1 s]
  end.
  simpl in Ht. injection Hres as <- <-.
  repeat split; auto.
  destruct (str_in _ _); simpl; exact Ht.
Qed.

(** X11.  A request to add a trip that does not succeed leaves no trace.
    When the answer is not the success with a trip id - the country is
    missing or blank, a date does not parse and the request ends in an
    exception, or cities or companions are no lists - the database is
    exactly as before: no trip is stored and the visited and planned
    lists stay. *)
Theorem failed_add_trip_writes_nothing `{HashOrder} `{DateParser}
        db now payload db' r :
  api_add_trip db now payload = (db', r) ->
  (forall trip_id, r <> Some {| status := 200; json := BTrip trip_id |}) ->
  db' = db
  /\ (r = None
      \/ r = Some {| status := 400;
                     json := BError (lit "country is required") |}
      \/ r = Some {| status := 400;
                     json := BError (lit "cities/companions must be lists") |}).
Proof.
  unfold api_add_trip. intros Hres Hfail.
  destruct (truthy (strip (or_empty (p_country payload))));
    simpl in Hres; [|injection Hres as <- <-; auto].
  destruct (_parse_date_yyyy_mm_dd (p_start_date payload));
    [|injection Hres as <- <-; auto].
  destruct (_parse_date_yyyy_mm_dd (p_end_date payload));
    [|injection Hres as <- <-; auto].
  destruct (p_cities payload); [|injection Hres as <- <-; auto].
  destruct (p_companions payload); [|injection Hres as <- <-; auto].
  destruct (_ensure_state_row _ now) as [db1 s].
  injection Hres as _ <-. exfalso. eapply Hfail. reflexivity.
Qed.

Lemma failed_add_trip_writes_nothing_witness :
  fst (api_add_trip sample_db 30%Z
         {| p_country := Some (lit "  ");
            p_start_date := None; p_end_date := None;
            p_cities := Some [lit "Porto"]; p_companions := Some [];
            p_notes := None |}) = sample_db
  /\ fst (api_add_trip sample_db 30%Z
            {| p_country := Some (lit "Portugal");
               p_start_date := Some (lit "2024-13-01"); p_end_date := None;
               p_cities := Some [lit "Porto"]; p_companions := Some [];
               p_notes := None |}) = sample_db.
Proof.
  split.
  - eapply (failed_add_trip_writes_nothing sample_db 30%Z).
    + apply surjective_pairing.
    + vm_compute. discriminate.
  - eapply (failed_add_trip_writes_nothing sample_db 30%Z).
    + apply surjective_pairing.
    + vm_compute. discriminate.
Defined.

Lemma wf_new_trip `{HashOrder} id country sd ed cities companions notes now :
  (0 < id)%Z -> strip country <> [] ->
  wf_trip {| Trip.id := id;
             Trip.country := strip country;
             Trip.start_date := sd;
             Trip.end_date := ed;
             Trip.cities := _uniq_sorted cities;
             Trip.companions := _uniq_sorted companions;
             Trip.notes := strip notes;
             Trip.created_at := now |}.
Proof.
  intros Hid Hne. unfold wf_trip. simpl.
  split; [exact Hid|]. split; [apply strip_idem|]. split; [exact Hne|].
  split; [apply uniq_sorted_normalised|].
  split; [apply uniq_sorted_normalised|apply strip_idem].
Qed.

(** X12.  A successful [POST /api/trips] stores one new trip after the
    old ones, which stay as they are.  The trip has the id that is
    returned - positive and above the id of every stored trip - the
    trimmed country, which is not empty, the normalised cities and
    companions, the trimmed notes, and the clock's reading as its
    creation time. *)
Theorem add_trip_stores_trip `{HashOrder} `{DateParser}
        db now payload db' trip_id :
  api_add_trip db now payload =
    (db', Some {| status := 200; json := BTrip trip_id |}) ->
  exists t,
    trip_rows db' = trip_rows db ++ [t]
    /\ Trip.id t = trip_id
    /\ (0 < trip_id)%Z
    /\ (forall t', In t' (trip_rows db) -> (Trip.id t' < trip_id)%Z)
    /\ Trip.country t = strip (or_empty (p_country payload))
    /\ Trip.country t <> []
    /\ (exists cities, p_cities payload = Some cities
                       /\ Trip.cities t = _uniq_sorted cities)
    /\ (exists companions, p_companions payload = Some companions
                           /\ Trip.companions t = _uniq_sorted companions)
    /\ Trip.notes t = strip (or_empty (p_notes payload))
    /\ Trip.created_at t = now
    /\ wf_trip t.
Proof.
  intros Hres.
  destruct (api_add_trip_row _ _ _ Hres) as [Hne _].
  destruct (api_add_trip_trip _ _ _ Hres)
    as (sd & ed & cities & companions & _ & _ & Hc & Hp & -> & Hrows).
  destruct (next_trip_id_above (trip_rows db)) as [Hpos Habove].
  eexists. split; [exact Hrows|]. simpl.
  split; [reflexivity|]. split; [exact Hpos|]. split; [exact Habove|].
  split; [reflexivity|]. split; [exact Hne|].
  split; [now exists cities|]. split; [now exists companions|].
  split; [reflexivity|]. split; [reflexivity|].
  now apply wf_new_trip.
Qed.

Lemma add_trip_stores_trip_witness :
  exists t,
    trip_rows (fst (api_add_trip sample_db 30%Z spain_payload))
      = [sample_trip; t]
    /\ Trip.id t = 2%Z
    /\ Trip.cities t = [lit "Granada"].
Proof.
  destruct (@add_trip_stores_trip insertion_order no_dates sample_db 30%Z
              spain_payload
              (fst (api_add_trip sample_db 30%Z spain_payload)) 2%Z)
    as (t & Hrows & Hid & _ & _ & _ & _ & (cities & Hc & Hcities) & _).
  - vm_compute. reflexivity.
  - exists t. split; [exact Hrows|]. split; [exact Hid|].
    rewrite Hcities. injection Hc as <-. reflexivity.
Defined.

Lemma filter_other_ids rows id :
  (forall t, In t rows -> (Trip.id t < id)%Z) ->
  filter (fun t => negb (Trip.id t =? id)%Z) rows = rows
  /\ existsb (fun t => (Trip.id t =? id)%Z) rows = false.
Proof.
  induction rows as [|t r IH]; intros Hlt; simpl; [now split|].
  assert (Ht : (Trip.id t =? id)%Z = false).
  { apply Z.eqb_neq. specialize (Hlt t (or_introl eq_refl)). lia. }
  rewrite Ht. simpl.
  destruct IH as [IH1 IH2]; [intros t' Ht'; apply Hlt; now right|].
  now rewrite IH1, IH2.
Qed.

(** X13.  Adding a trip and deleting it again.  Deleting the trip whose
    id a successful [POST /api/trips] returned succeeds and leaves the
    trips exactly as they were before the trip was added.  The state row
    is not put back: it stays as the addition left it, with the country
    in the visited list. *)
Theorem add_then_delete_trip `{HashOrder} `{DateParser}
        db now payload db' trip_id :
  api_add_trip db now payload =
    (db', Some {| status := 200; json := BTrip trip_id |}) ->
  snd (api_delete_trip db' trip_id) = Some {| status := 200; json := BOk |}
  /\ trip_rows (fst (api_delete_trip db' trip_id)) = trip_rows db
  /\ state_row (fst (api_delete_trip db' trip_id)) = state_row db'
  /\ exists s', state_row db' = Some s'
                /\ In (strip (or_empty (p_country payload)))
                      (AppState.visited s').
Proof.
  intros Hres.
  destruct (api_add_trip_trip _ _ _ Hres)
    as (sd & ed & cities & companions & _ & _ & _ & _ & Hid & Hrows).
  destruct (next_trip_id_above (trip_rows db)) as [_ Habove].
  rewrite <- Hid in Habove.
  destruct (@filter_other_ids (trip_rows db) trip_id Habove) as [Hf He].
  unfold api_delete_trip. rewrite Hrows.
  rewrite existsb_app, filter_app, Hf, He. simpl.
  rewrite Z.eqb_refl. simpl. rewrite app_nil_r.
  split; [reflexivity|]. split; [reflexivity|]. split; [reflexivity|].
  destruct (api_add_trip_row _ _ _ Hres) as [Hne Hrow].
  cbv zeta in Hrow.
  eexists. split; [exact Hrow|].
  destruct (str_in _ _) eqn:Ev; [now apply str_in_In in Ev|]. simpl.
  apply uniq_sorted_add; [apply strip_idem|exact Hne].
Qed.

Lemma add_then_delete_trip_witness :
  trip_rows
    (fst (api_delete_trip
            (fst (api_add_trip (fresh_db [lit "Spain"]) 10%Z spain_payload))
            1%Z)) = []
  /\ option_map AppState.visited
       (state_row
          (fst (api_delete_trip
                  (fst (api_add_trip (fresh_db [lit "Spain"]) 10%Z
                          spain_payload)) 1%Z)))
     = Some [lit "Spain"].
Proof.
  destruct (@add_then_delete_trip insertion_order no_dates
              (fresh_db [lit "Spain"]) 10%Z spain_payload
              (fst (api_add_trip (fresh_db [lit "Spain"]) 10%Z spain_payload))
              1%Z)
    as (_ & Hrows & Hstate & _).
  - vm_compute. reflexivity.
  - split; [exact Hrows|]. rewrite Hstate. vm_compute. reflexivity.
Defined.

Lemma filter_absent_id rows id :
  ~ In id (map Trip.id rows) ->
  filter (fun t => negb (Trip.id t =? id)%Z) rows = rows.
Proof.
  induction rows as [|t r IH]; intros Hnot; [reflexivity|].
  cbn [map In filter] in *.
  destruct (Z.eqb_spec (Trip.id t) id) as [E|E]; [tauto|].
  cbn [negb]. f_equal. apply IH. tauto.
Qed.

Lemma length_filter_unique_id rows id :
  NoDup (map Trip.id rows) -> In id (map Trip.id rows) ->
  S (length (filter (fun t => negb (Trip.id t =? id)%Z) rows)) = length rows.
Proof.
  induction rows as [|t r IH]; intros Hnd Hin; [destruct Hin|].
  cbn [map In filter] in *. inversion Hnd as [|? ? Hnt Hnr]; subst.
  destruct (Z.eqb_spec (Trip.id t) id) as [E|E]; cbn [negb length].
  - subst id. now rewrite filter_absent_id.
  - f_equal. apply IH; [assumption|]. tauto.
Qed.

(** X14.  Deleting a trip, for an id that the route accepts (a natural
    number).  An id above the largest integer of the database makes the
    request end in an exception, and nothing is written.  For another
    id: when no stored trip has it, the answer is the error of status
    404 and the database is as before; otherwise the answer is a
    success, the trips with other ids stay in their order, no trip with
    the id is left - so deleting it once more gives the 404 - and the
    state row, with the visited and planned lists, is not touched.  With
    ids that are distinct, one trip is removed. *)
Theorem delete_trip_effect db trip_id :
  let db' := fst (api_delete_trip_any_id db trip_id) in
  ((max_rowid < trip_id)%Z -> api_delete_trip_any_id db trip_id = (db, None))
  /\ ((0 <= trip_id <= max_rowid)%Z ->
      ~ In trip_id (map Trip.id (trip_rows db)) ->
      api_delete_trip_any_id db trip_id =
        (db, Some {| status := 404; json := BError (lit "trip not found") |}))
  /\ ((0 <= trip_id <= max_rowid)%Z ->
      In trip_id (map Trip.id (trip_rows db)) ->
      snd (api_delete_trip_any_id db trip_id)
        = Some {| status := 200; json := BOk |}
      /\ state_row db' = state_row db
      /\ trip_rows db'
         = filter (fun t => negb (Trip.id t =? trip_id)%Z) (trip_rows db)
      /\ (forall t, In t (trip_rows db') <->
                    In t (trip_rows db) /\ Trip.id t <> trip_id)
      /\ api_delete_trip_any_id db' trip_id =
           (db', Some {| status := 404;
                         json := BError (lit "trip not found") |})
      /\ (NoDup (map Trip.id (trip_rows db)) ->
          S (length (trip_rows db')) = length (trip_rows db))).
Proof.
  intros db'.
  assert (Hex : forall rows,
            existsb (fun t => (Trip.id t =? trip_id)%Z) rows = true
            <-> In trip_id (map Trip.id rows)).
  { intros rows. rewrite existsb_exists, in_map_iff.
    split; intros (t & H1 & H2); exists t.
    - apply Z.eqb_eq in H2. now split.
    - split; [assumption|]. now apply Z.eqb_eq. }
  split; [|split].
  - intros Hbig. unfold api_delete_trip_any_id.
    destruct (Z.leb_spec trip_id max_rowid); [lia|reflexivity].
  - intros [_ Hfit] Hnot. unfold api_delete_trip_any_id, api_delete_trip.
    apply Z.leb_le in Hfit. rewrite Hfit.
    destruct (existsb _ (trip_rows db)) eqn:E; [|reflexivity].
    apply Hex in E. contradiction.
  - intros [_ Hfit] Hin. apply Hex in Hin.
    unfold db', api_delete_trip_any_id, api_delete_trip.
    apply Z.leb_le in Hfit. rewrite Hfit, Hin. simpl.
    assert (Hgone : existsb (fun t => (Trip.id t =? trip_id)%Z)
                      (filter (fun t => negb (Trip.id t =? trip_id)%Z)
                              (trip_rows db)) = false).
    { destruct (existsb _ (filter _ _)) eqn:E; [|reflexivity].
      apply existsb_exists in E. destruct E as (t & Ht & E).
      apply filter_In in Ht. destruct Ht as [_ Ht].
      rewrite E in Ht. discriminate. }
    rewrite Hgone.
    split; [reflexivity|]. split; [reflexivity|]. split; [reflexivity|].
    split.
    { intros t. rewrite filter_In, negb_true_iff, Z.eqb_neq. tauto. }
    split; [reflexivity|].
    intros Hnd. apply Hex in Hin. now apply length_filter_unique_id.
Qed.

(* ------------------------------------------------------------------ *)
(** * What every reachable database satisfies *)
(* ------------------------------------------------------------------ *)

Lemma StronglySorted_filter (A : Type) (R : A -> A -> Prop) p l :
  StronglySorted R l -> StronglySorted R (filter p l).
Proof.
  induction 1 as [|x r Hr IH Hx]; simpl; [constructor|].
  destruct (p x); [constructor|]; auto.
  rewrite Forall_forall in *. intros y Hy. apply Hx.
  apply filter_In in Hy. tauto.
Qed.

Lemma normalised_nil : normalised [].
Proof. split; [constructor|intros x []]. Qed.

Lemma normalised_filter p l : normalised l -> normalised (filter p l).
Proof.
  intros [Hs Ht]. split; [now apply StronglySorted_filter|].
  intros x Hx. apply filter_In in Hx. apply Ht. tauto.
Qed.

Lemma NoDup_map_filter (A B : Type) (f : A -> B) p l :
  NoDup (map f l) -> NoDup (map f (filter p l)).
Proof.
  induction l as [|x r IH]; simpl; intros Hnd; [constructor|].
  inversion Hnd as [|? ? Hx Hr]; subst.
  destruct (p x); simpl; [constructor|]; auto.
  intros Hin. apply Hx. apply in_map_iff in Hin.
  destruct Hin as (y & <- & Hy). apply in_map. apply filter_In in Hy. tauto.
Qed.

Lemma wf_db_row db : wf_db db -> forall now,
  exists s, _ensure_state_row db now = (db, s)
            /\ state_row db = Some s
            /\ AppState.id s = 1%Z
            /\ normalised (AppState.visited s)
            /\ normalised (AppState.planned s).
Proof.
  intros ((s & Hs & Hrest) & _) now. exists s.
  split; [now apply ensure_state_row_existing|]. now split.
Qed.

Lemma wf_init_db start : wf_db (init_db start).
Proof.
  unfold init_db, wf_db. simpl. split; [|split; constructor].
  eexists. split; [reflexivity|]. simpl.
  split; [reflexivity|]. split; apply normalised_nil.
Qed.

Lemma wf_api_set_state `{HashOrder} db now visited planned :
  wf_db db -> wf_db (fst (api_set_state db now visited planned)).
Proof.
  intros Hwf. unfold api_set_state.
  destruct visited as [v|], planned as [p|]; simpl; auto.
  destruct (wf_db_row Hwf now) as (s & -> & _ & Hid & _).
  destruct Hwf as (_ & Htrips & Hids).
  unfold commit_state, wf_db. simpl.
  split; [|now split].
  eexists. split; [reflexivity|]. simpl.
  split; [exact Hid|]. split; apply uniq_sorted_normalised.
Qed.

Lemma wf_api_add_trip `{HashOrder} `{DateParser} db now payload :
  wf_db db -> wf_db (fst (api_add_trip db now payload)).
Proof.
  intros Hwf.
  destruct (api_add_trip db now payload) as [db' r] eqn:Hres. simpl.
  assert (Hcase : (exists trip_id,
                     r = Some {| status := 200; json := BTrip trip_id |})
                  \/ forall trip_id,
                       r <> Some {| status := 200; json := BTrip trip_id |}).
  { destruct r as [[st [| | |trip_id|]]|];
      try (right; intros ? [=]; fail).
    destruct (Nat.eq_dec st 200) as [->|Hne]; [left; now exists trip_id|].
    right. intros ? [=]. contradiction. }
  destruct Hcase as [[trip_id ->]|Hfail].
  - destruct (api_add_trip_row _ _ _ Hres) as [Hne Hrow].
    destruct (api_add_trip_trip _ _ _ Hres)
      as (sd & ed & cities & companions & _ & _ & _ & _ & Hid & Hrows).
    destruct (next_trip_id_above (trip_rows db)) as [Hpos Habove].
    destruct (wf_db_row Hwf now) as (s & He & _ & Hsid & Hv & Hp).
    cbv zeta in Hrow. rewrite He in Hrow. simpl in Hrow.
    destruct Hwf as (_ & Htrips & Hids).
    unfold wf_db. rewrite Hrows, Hrow. split; [|split].
    + eexists. split; [reflexivity|].
      destruct (str_in _ _); simpl; [now split|].
      split; [exact Hsid|]. split; [apply uniq_sorted_normalised|].
      now apply normalised_filter.
    + apply Forall_app. split; [exact Htrips|].
      constructor; [|constructor]. subst trip_id.
      now apply wf_new_trip.
    + rewrite map_app. simpl. apply NoDup_app; [exact Hids| |].
      * constructor; [intros []|constructor].
      * intros x Hx [<-|[]]. apply in_map_iff in Hx.
        destruct Hx as (t & Ht & Hin). specialize (Habove t Hin). lia.
  - unfold api_add_trip in Hres.
    destruct (truthy (strip (or_empty (p_country payload))));
      simpl in Hres; [|injection Hres as <- _; exact Hwf].
    destruct (_parse_date_yyyy_mm_dd (p_start_date payload));
      [|injection Hres as <- _; exact Hwf].
    destruct (_parse_date_yyyy_mm_dd (p_end_date payload));
      [|injection Hres as <- _; exact Hwf].
    destruct (p_cities payload); [|injection Hres as <- _; exact Hwf].
    destruct (p_companions payload); [|injection Hres as <- _; exact Hwf].
    destruct (_ensure_state_row _ now) as [db1 s].
    injection Hres as _ <-. exfalso. eapply Hfail. reflexivity.
Qed.

Lemma wf_api_delete_trip db trip_id :
  wf_db db -> wf_db (fst (api_delete_trip db trip_id)).
Proof.
  intros Hwf. unfold api_delete_trip.
  destruct (existsb _ _); simpl; [|exact Hwf].
  destruct Hwf as (Hrow & Htrips & Hids). unfold wf_db. simpl.
  split; [exact Hrow|]. split.
  - apply Forall_forall. intros t Ht. apply filter_In in Ht.
    rewrite Forall_forall in Htrips. apply Htrips. tauto.
  - now apply NoDup_map_filter.
Qed.

Lemma wf_handle `{HashOrder} `{DateParser} `{Scorer} `{IsoFormat}
      db now r :
  wf_db db -> wf_db (handle db now r).
Proof.
  intros Hwf. destruct r as [|v p|payload|trip_id|file]; simpl.
  - rewrite api_get_state_fst.
    destruct (wf_db_row Hwf now) as (s & -> & _). exact Hwf.
  - now apply wf_api_set_state.
  - now apply wf_api_add_trip.
  - now apply wf_api_delete_trip.
  - rewrite api_suggestions_eq. simpl.
    destruct (wf_db_row Hwf now) as (s & -> & _). exact Hwf.
Qed.

Lemma wf_requests `{HashOrder} `{DateParser} `{Scorer} `{IsoFormat}
      requests : forall db,
  wf_db db ->
  wf_db (fold_left (fun db r => handle db (fst r) (snd r)) requests db).
Proof.
  induction requests as [|[now r] rest IH]; intros db Hwf; simpl;
    [exact Hwf|].
  apply IH. now apply wf_handle.
Qed.

(** X15.  Whatever requests are served, in whatever order and with
    whatever payloads, starting from a new database: the state row is
    there with [id = 1]; the visited list and the planned list are
    strictly increasing lists of trimmed names that are not empty (so
    sorted and without repetition); every trip has a positive id, a
    trimmed country that is not empty, cities and companions normalised
    in the same way and trimmed notes; and no two trips have the same
    id. *)
Theorem reachable_databases_well_formed
        `{HashOrder} `{DateParser} `{Scorer} `{IsoFormat} start requests :
  wf_db (run start requests).
Proof.
  unfold run. apply wf_requests, wf_init_db.
Qed.

(* ------------------------------------------------------------------ *)
(** * Trips and the cold start *)
(* ------------------------------------------------------------------ *)

Lemma trip_doc_not_empty t : strip (Trip.country t) <> [] -> trip_doc t <> [].
Proof.
  intros Hc Hdoc. apply Hc. apply strip_nil_blank, split_nil_blank.
  assert (Hs : split (trip_doc t) = []) by now rewrite Hdoc.
  unfold trip_doc in Hs. rewrite split_strip, split_join in Hs.
  simpl in Hs. rewrite split_strip in Hs.
  apply app_eq_nil in Hs. tauto.
Qed.

Lemma query_trips_In db t : In t (query_trips db) <-> In t (trip_rows db).
Proof. apply stable_sort_In. Qed.




(** With a profile, a suggestion is made from a candidate and the
    similarity that the scorer returned for it. *)
Lemma scored_suggestion_from_scorer `{HashOrder} `{Scorer}
      db now file db' st out note country bucket sg :
  profile_of db <> [] ->
  api_suggestions db now file =
    (db', Some {| status := st; json := BSuggestions out note |}) ->
  dict_get out country = Some bucket ->
  In sg bucket ->
  exists sims c q,
    tfidf_cosine (profile_of db)
                 (map Candidate.doc (candidates_of db now file)) = Some sims
    /\ In (c, q) (combine (candidates_of db now file) sims)
    /\ Candidate.country c = country
    /\ sg = scored_suggestion c q.
Proof.
  intros Hp Hsug Hget Hsg.
  rewrite api_suggestions_eq in Hsug. injection Hsug as _ Hsug.
  apply truthy_true in Hp. rewrite Hp in Hsug.
  destruct (truthy (_load_country_city_catalog file)); simpl in Hsug;
    [|discriminate].
  destruct (truthy (candidates_of db now file)); simpl in Hsug;
    [|injection Hsug as _ <- _; discriminate].
  destruct (tfidf_cosine _ _) as [sims|]; [|discriminate].
  injection Hsug as _ <- _.
  rewrite top_per_country_get in Hget. cbv zeta in Hget.
  destruct (truthy (scored_of_country _ _)); [|discriminate].
  injection Hget as <-. apply in_map_iff in Hsg.
  destruct Hsg as ([c q] & <- & Hx). exists sims, c, q. simpl.
  apply In_firstn in Hx.
  apply (Permutation_in _ (Permutation_sym (sort_scored_perm _))) in Hx.
  apply In_scored_of_country in Hx. destruct Hx as [Hx Hc].
  repeat split; auto.
Qed.

(** X17.  Once a trip is added, the suggestions are scored.  After a
    successful [POST /api/trips] the profile is not empty, so a
    following suggestions request does not hand out the starter list:
    the scorer is called on the profile and the candidate documents,
    and every suggestion that is returned is made from a candidate and
    the similarity that this call returned for it - the score is this
    similarity, and the reason shows it and is not the starter
    reason. *)
Theorem suggestions_after_trip_are_scored `{HashOrder} `{DateParser}
        db now payload db' trip_id :
  api_add_trip db now payload =
    (db', Some {| status := 200; json := BTrip trip_id |}) ->
  profile_of db' <> []
  /\ forall (sk : Scorer) now' file db'' st out note country bucket sg,
       api_suggestions db' now' file =
         (db'', Some {| status := st; json := BSuggestions out note |}) ->
       dict_get out country = Some bucket ->
       In sg bucket ->
       exists sims c q,
         tfidf_cosine (profile_of db')
                      (map Candidate.doc (candidates_of db' now' file))
           = Some sims
         /\ In (c, q) (combine (candidates_of db' now' file) sims)
         /\ Candidate.country c = country
         /\ sg = scored_suggestion c q
         /\ Suggestion.score sg = q
         /\ Suggestion.reason sg =
            lit "Matches your travel profile (score " ++ format_2f q
              ++ lit ")."
         /\ Suggestion.reason sg <> starter_reason.
Proof.
  intros Hres.
  destruct (api_add_trip_row _ _ _ Hres) as [Hne _].
  destruct (api_add_trip_trip _ _ _ Hres)
    as (sd & ed & cities & companions & _ & _ & _ & _ & _ & Hrows).
  assert (Hp : profile_of db' <> []).
  { unfold profile_of. rewrite build_visited_docs_filter.
    match type of Hrows with _ = _ ++ [?u] => remember u as t eqn:Ht end.
    assert (Hin : In (trip_doc t)
                     (filter (@truthy char) (map trip_doc (query_trips db')))).
    { apply filter_In. split.
      - apply in_map, query_trips_In. rewrite Hrows.
        apply in_or_app. right. now left.
      - apply truthy_true, trip_doc_not_empty. subst t. simpl.
        pose proof (strip_idem (or_empty (p_country payload))) as Hi.
        unfold trimmed in Hi. now rewrite Hi. }
    intros E. rewrite E in Hin. destruct Hin. }
  split; [exact Hp|].
  intros sk now' file db'' st out note country bucket sg Hsug Hget Hsg.
  destruct (@scored_suggestion_from_scorer _ sk _ _ _ _ _ _ _ _ _ _ Hp Hsug Hget Hsg)
    as (sims & c & q & Hs & Hin & Hc & ->).
  exists sims, c, q. simpl.
  repeat (split; [first [assumption|reflexivity]|]). discriminate.
Qed.

Lemma suggestions_after_trip_are_scored_witness :
  exists sims c,
    tfidf_cosine
      (profile_of (fst (api_add_trip (fresh_db [lit "France"]) 10%Z
                          spain_payload)))
      (map Candidate.doc
           (candidates_of
              (fst (api_add_trip (fresh_db [lit "France"]) 10%Z spain_payload))
              20%Z sample_file)) = Some sims
    /\ In (c, 5 # 12)
          (combine
             (candidates_of
                (fst (api_add_trip (fresh_db [lit "France"]) 10%Z
                        spain_payload))
                20%Z sample_file) sims)
    /\ Suggestion.city (scored_suggestion c (5 # 12)) = lit "Lyon".
Proof.
  destruct (@suggestions_after_trip_are_scored insertion_order no_dates
              (fresh_db [lit "France"]) 10%Z spain_payload
              (fst (api_add_trip (fresh_db [lit "France"]) 10%Z spain_payload))
              1%Z) as [_ Hscored]; [vm_compute; reflexivity|].
  destruct (Hscored char_overlap_scorer 20%Z sample_file
              (fst (api_add_trip (fresh_db [lit "France"]) 10%Z spain_payload))
              200%nat
              (top_per_country
                 (candidates_of
                    (fst (api_add_trip (fresh_db [lit "France"]) 10%Z
                            spain_payload)) 20%Z sample_file)
                 (map (char_overlap
                         (concat
                            (profile_of
                               (fst (api_add_trip (fresh_db [lit "France"])
                                       10%Z spain_payload)))))
                      (map Candidate.doc
                           (candidates_of
                              (fst (api_add_trip (fresh_db [lit "France"])
                                      10%Z spain_payload))
                              20%Z sample_file))))
              None (lit "France")
              [ scored_suggestion (candidate (lit "France") (lit "Paris"))
                                  (8 # 13);
                scored_suggestion (candidate (lit "France") (lit "Lyon"))
                                  (5 # 12) ]
              (scored_suggestion (candidate (lit "France") (lit "Lyon"))
                                 (5 # 12)))
    as (sims & c & q & Hs & Hin & _ & Hsg & Hq & _).
  - vm_compute. reflexivity.
  - vm_compute. reflexivity.
  - right. left. reflexivity.
  - exists sims, c. simpl in Hq. subst q.
    split; [exact Hs|]. split; [exact Hin|]. now rewrite <- Hsg.
Defined.

(* ------------------------------------------------------------------ *)
(** * Stored data and the order of sets *)
(* ------------------------------------------------------------------ *)

Lemma api_set_state_hash_independent (h1 h2 : HashOrder) db now visited planned :
  @api_set_state h1 db now visited planned
  = @api_set_state h2 db now visited planned.
Proof.
  unfold api_set_state. destruct visited, planned; try reflexivity.
  destruct (_ensure_state_row db now) as [db1 s].
  now rewrite !(uniq_sorted_hash_independent h1 h2).
Qed.

Lemma api_add_trip_hash_independent (h1 h2 : HashOrder) `{DateParser}
      db now payload :
  @api_add_trip h1 _ db now payload = @api_add_trip h2 _ db now payload.
Proof.
  unfold api_add_trip.
  destruct (truthy _); simpl; [|reflexivity].
  destruct (_parse_date_yyyy_mm_dd (p_start_date payload)); [|reflexivity].
  destruct (_parse_date_yyyy_mm_dd (p_end_date payload)); [|reflexivity].
  destruct (p_cities payload); [|reflexivity].
  destruct (p_companions payload); [|reflexivity].
  rewrite !(uniq_sorted_hash_independent h1 h2).
  destruct (_ensure_state_row _ now) as [db1 s].
  now rewrite !(uniq_sorted_hash_independent h1 h2).
Qed.

(** X18.  What is stored and answered does not depend on the order in
    which a process iterates its sets.  [api_set_state] and
    [api_add_trip] give the same database and the same response under
    any two hash orders, and so the database after any list of requests
    is the same under both. *)
Theorem stored_data_hash_independent (h1 h2 : HashOrder)
        `{DateParser} `{Scorer} `{IsoFormat} :
  (forall db now visited planned,
     @api_set_state h1 db now visited planned
     = @api_set_state h2 db now visited planned)
  /\ (forall db now payload,
        @api_add_trip h1 _ db now payload = @api_add_trip h2 _ db now payload)
  /\ forall start requests,
       @run h1 _ _ _ start requests = @run h2 _ _ _ start requests.
Proof.
  split; [apply api_set_state_hash_independent|].
  split; [apply api_add_trip_hash_independent|].
  intros start requests. unfold run. generalize (init_db start) as db.
  induction requests as [|[now r] rest IH]; intros db; simpl; [reflexivity|].
  rewrite IH. f_equal.
  destruct r as [|v p|payload|trip_id|file]; simpl; try reflexivity.
  - now rewrite (api_set_state_hash_independent h1 h2).
  - now rewrite (api_add_trip_hash_independent h1 h2).
  - now rewrite !api_suggestions_eq.
Qed.

(* ------------------------------------------------------------------ *)
(** * The trip list of [GET /api/state] *)
(* ------------------------------------------------------------------ *)

(** The relation [query_trips] sorts by: the later trip first. *)
Lemma newer_order :
  let newer := fun a b : Trip.t => (Trip.created_at b <? Trip.created_at a)%Z in
  (forall a, newer a a = false)
  /\ (forall a b c, newer a b = true -> newer b c = true -> newer a c = true)
  /\ (forall a b c, newer a c = true -> newer a b = true \/ newer b c = true).
Proof.
  simpl. split; [intros a; apply Z.ltb_irrefl|]. split.
  - intros a b c. rewrite !Z.ltb_lt. lia.
  - intros a b c. rewrite !Z.ltb_lt.
    destruct (Z.lt_ge_cases (Trip.created_at b) (Trip.created_at a));
      [now left|right; lia].
Qed.

Lemma query_trips_descending db :
  StronglySorted (fun a b => (Trip.created_at b <= Trip.created_at a)%Z)
                 (query_trips db).
Proof.
  destruct newer_order as (Hirr & Htr & Hco).
  pose proof (stable_sort_ordered _ Hirr Htr Hco (trip_rows db)) as Ho.
  unfold ordered in Ho. fold (query_trips db) in Ho.
  induction Ho as [|t r Hr IH Ht]; constructor; auto.
  eapply Forall_impl; [|exact Ht]. intros u Hu.
  apply Z.ltb_ge in Hu. exact Hu.
Qed.

(** X19.  [GET /api/state] returns the stored visited and planned lists
    and every stored trip once, the newest first: the trips listed are a
    rearrangement of the trip table in which creation times never go
    up; the ids, countries, cities, companions and notes are passed on
    as stored. *)
Theorem get_state_lists_trips_newest_first `{IsoFormat} db now :
  let body := snd (api_get_state db now) in
  j_visited body = AppState.visited (snd (_ensure_state_row db now))
  /\ j_planned body = AppState.planned (snd (_ensure_state_row db now))
  /\ exists trips,
       j_trips body = map trip_json trips
       /\ Permutation (trip_rows db) trips
       /\ StronglySorted
            (fun a b => (Trip.created_at b <= Trip.created_at a)%Z) trips
       /\ map TripJson.id (j_trips body) = map Trip.id trips
       /\ map TripJson.country (j_trips body) = map Trip.country trips
       /\ map TripJson.cities (j_trips body) = map Trip.cities trips
       /\ map TripJson.companions (j_trips body) = map Trip.companions trips
       /\ map TripJson.notes (j_trips body) = map Trip.notes trips.
Proof.
  intros body.
  assert (Hbody : body =
            {| j_visited := AppState.visited (snd (_ensure_state_row db now));
               j_planned := AppState.planned (snd (_ensure_state_row db now));
               j_trips := map trip_json (query_trips db) |}).
  { unfold body, api_get_state.
    rewrite <- (query_trips_ensure db now).
    now destruct (_ensure_state_row db now). }
  rewrite Hbody. simpl.
  split; [reflexivity|]. split; [reflexivity|].
  exists (query_trips db).
  split; [reflexivity|].
  split; [apply stable_sort_perm|].
  split; [apply query_trips_descending|].
  rewrite !map_map. simpl. repeat split; reflexivity.
Qed.

(* ------------------------------------------------------------------ *)
(** * Which cities a country gets *)
(* ------------------------------------------------------------------ *)

Lemma of_country_planned_once `{HashOrder} db now file country :
  NoDup (planned_of db now) -> In country (planned_of db now) ->
  map Candidate.city (of_country country (candidates_of db now file))
  = dict_get_default (_load_country_city_catalog file) country [].
Proof.
  intros Hnd Hin. unfold candidates_of. rewrite of_country_build_candidates.
  assert (Hone : count_occ str_eq_dec (planned_of db now) country = 1%nat).
  { apply NoDup_count_occ' with (decA := str_eq_dec) in Hin; assumption. }
  rewrite Hone. simpl. now rewrite app_nil_r, map_city_candidates.
Qed.

(** X20.  A planned country with at most eight catalog cities gets all
    of them.  When no country is planned twice, a successful response
    has, for each planned country with between one and eight cities in
    the catalog, a list whose cities are exactly the catalog's cities
    for it, each once; travel history can change their order and
    scores, not which cities they are. *)
Theorem small_country_fully_suggested `{HashOrder} `{Scorer}
        db now file db' st out note country :
  planned_unique db ->
  In country (planned_of db now) ->
  let cities := dict_get_default (_load_country_city_catalog file) country [] in
  cities <> [] ->
  (length cities <= 8)%nat ->
  api_suggestions db now file =
    (db', Some {| status := st; json := BSuggestions out note |}) ->
  exists bucket,
    dict_get out country = Some bucket
    /\ Permutation (map Suggestion.city bucket) cities.
Proof.
  intros Hu Hin cities Hne Hlen Hres.
  destruct (ensure_state_row_planned_unique db now Hu) as [_ Hnd].
  destruct (suggestions_bucket_cities _ _ _ country Hres)
    as (arranged & Hperm & Hget).
  pose proof (of_country_planned_once db now file country Hnd Hin) as Hc.
  fold cities in Hc.
  pose proof (Permutation_map Candidate.city Hperm) as Hpc.
  rewrite Hc in Hpc.
  assert (Hl : length arranged = length cities).
  { rewrite <- (length_map Candidate.city arranged).
    symmetry. now apply Permutation_length. }
  destruct (dict_get out country) as [bucket|]; cbn [option_map] in Hget.
  - exists bucket. split; [reflexivity|].
    destruct (truthy arranged); [|discriminate].
    injection Hget as ->. rewrite firstn_all2 by lia. now symmetry.
  - destruct (truthy arranged) eqn:Et; [discriminate|].
    apply truthy_false in Et. subst arranged.
    destruct cities; [congruence|discriminate].
Qed.

Lemma small_country_fully_suggested_witness :
  exists bucket,
    dict_get (top_per_country
                (candidates_of sample_db 20%Z sample_file)
                (map (char_overlap (concat (profile_of sample_db)))
                     (map Candidate.doc
                          (candidates_of sample_db 20%Z sample_file))))
             (lit "France") = Some bucket
    /\ Permutation (map Suggestion.city bucket) [lit "Lyon"; lit "Paris"].
Proof.
  apply (@small_country_fully_suggested insertion_order char_overlap_scorer
           sample_db 20%Z sample_file sample_db 200%nat _ None (lit "France")).
  - vm_compute. repeat constructor; simpl; intuition discriminate.
  - vm_compute. now left.
  - vm_compute. discriminate.
  - vm_compute. lia.
  - vm_compute. reflexivity.
Defined.



(* ------------------------------------------------------------------ *)
(** * The candidates, for any planned list and for a stored one *)
(* ------------------------------------------------------------------ *)

(** C6, as stated, fails on a planned list that names a country twice:
    the loop of lines 270-272 goes through the catalog's cities once for
    each occurrence, so with Spain planned twice and Granada and Madrid
    known for Spain, each pair has two entries. *)
Lemma one_entry_per_pair_counterexample :
  exists planned file country city,
    forall h : HashOrder,
      In country planned
      /\ In city (dict_get_default (_load_country_city_catalog file) country [])
      /\ build_candidates planned (_load_country_city_catalog file)
         = [ candidate (lit "Spain") (lit "Granada");
             candidate (lit "Spain") (lit "Madrid");
             candidate (lit "Spain") (lit "Granada");
             candidate (lit "Spain") (lit "Madrid") ]
      /\ candidate country city = candidate (lit "Spain") (lit "Granada")
      /\ ~ NoDup (build_candidates planned (_load_country_city_catalog file)).
Proof.
  exists [lit "Spain"; lit "Spain"], small_file, (lit "Spain"), (lit "Granada").
  intros h. rewrite (load_catalog_hash_independent h insertion_order).
  split; [now left|]. split; [vm_compute; now left|].
  split; [vm_compute; reflexivity|]. split; [reflexivity|].
  intros Hnd.
  assert (E : build_candidates [lit "Spain"; lit "Spain"]
                (@_load_country_city_catalog insertion_order small_file)
              = [ candidate (lit "Spain") (lit "Granada");
                  candidate (lit "Spain") (lit "Madrid");
                  candidate (lit "Spain") (lit "Granada");
                  candidate (lit "Spain") (lit "Madrid") ])
    by (vm_compute; reflexivity).
  rewrite E in Hnd. inversion Hnd as [|? ? Hx _]. apply Hx.
  right. left. reflexivity.
Qed.

(** C6, amended.  The candidate list is the catalog's cities of the
    first planned country, then those of the second, and so on, each
    city with the document ["{country} {city}"].  So the cities of a
    country's candidates are the catalog's list for it, in the catalog's
    order, once for each time the country is planned: exactly once when
    the planned list names no country twice, and then no candidate is
    repeated.  The planned list that a request reads names no country
    twice, whatever requests were served before, so there each pair has
    exactly one entry.  A planned country that the catalog does not have
    contributes nothing, and nothing fails. *)
Theorem candidates_cover_planned_catalog `{HashOrder} planned file :
  let country_cities := _load_country_city_catalog file in
  let candidates := build_candidates planned country_cities in
  candidates =
    flat_map
      (fun country =>
         map (candidate country) (dict_get_default country_cities country []))
      planned
  /\ (forall c, In c candidates <->
                exists country city,
                  In country planned
                  /\ In city (dict_get_default country_cities country [])
                  /\ c = candidate country city)
  /\ (forall c, In c candidates ->
                Candidate.doc c =
                Candidate.country c ++ lit " " ++ Candidate.city c)
  /\ (forall country,
        map Candidate.city (of_country country candidates) =
        concat (repeat (dict_get_default country_cities country [])
                       (count_occ str_eq_dec planned country)))
  /\ (NoDup planned ->
      NoDup candidates
      /\ forall country, In country planned ->
           map Candidate.city (of_country country candidates) =
           dict_get_default country_cities country [])
  /\ (forall (dp : DateParser) (sk : Scorer) (iso : IsoFormat)
             start requests now,
        planned = planned_of (run start requests) now ->
        NoDup planned
        /\ NoDup candidates
        /\ candidates = candidates_of (run start requests) now file
        /\ forall country, In country planned ->
             map Candidate.city (of_country country candidates) =
             dict_get_default country_cities country [])
  /\ (forall country, dict_get country_cities country = None ->
                      of_country country candidates = []).
Proof.
  intros country_cities candidates.
  assert (Hflat : candidates =
    flat_map
      (fun country =>
         map (candidate country) (dict_get_default country_cities country []))
      planned) by apply build_candidates_flat_map.
  assert (Hcities : forall country,
        map Candidate.city (of_country country candidates) =
        concat (repeat (dict_get_default country_cities country [])
                       (count_occ str_eq_dec planned country))).
  { intros country. rewrite Hflat. clear Hflat candidates.
    induction planned as [|c r IH]; simpl; [reflexivity|].
    unfold of_country in *. rewrite filter_app, map_app, IH.
    fold (of_country country
            (map (candidate c) (dict_get_default country_cities c []))).
    rewrite of_country_candidates.
    destruct (str_eq_dec c country) as [->|Hne].
    - rewrite str_eqb_refl, map_city_candidates. reflexivity.
    - apply str_eqb_neq in Hne. rewrite Hne. reflexivity. }
  assert (Hunique : NoDup planned ->
      NoDup candidates
      /\ forall country, In country planned ->
           map Candidate.city (of_country country candidates) =
           dict_get_default country_cities country []).
  { intros Hnd. split.
    + rewrite Hflat. clear Hflat Hcities candidates.
      induction Hnd as [|c r Hc Hr IH]; simpl; [constructor|].
      apply NoDup_app.
      * apply NoDup_map_candidate, catalog_cities_NoDup.
      * exact IH.
      * intros x Hx Hx'. apply in_map_iff in Hx.
        destruct Hx as (city & <- & _).
        apply In_flat_map_candidates in Hx'.
        destruct Hx' as (c' & city' & Hc' & _ & [= -> _]). contradiction.
    + intros country Hin. rewrite Hcities.
      assert (Hone : count_occ str_eq_dec planned country = 1%nat).
      { apply NoDup_count_occ' with (decA := str_eq_dec) in Hin; assumption. }
      rewrite Hone. simpl. apply app_nil_r. }
  split; [exact Hflat|].
  split; [intros c; rewrite Hflat; apply In_flat_map_candidates|].
  split.
  { intros c Hc. rewrite Hflat in Hc. apply In_flat_map_candidates in Hc.
    destruct Hc as (country & city & _ & _ & ->). reflexivity. }
  split; [exact Hcities|].
  split; [exact Hunique|].
  split.
  - intros dp sk iso start requests now Hplanned.
    assert (Hnd : NoDup planned).
    { assert (Hwf : wf_db (run start requests))
        by (unfold run; apply wf_requests, wf_init_db).
      destruct (wf_db_row Hwf now) as (s & _ & Hrow & _ & _ & [Hs _]).
      rewrite Hplanned, (planned_of_row _ now Hrow).
      now apply increasing_NoDup. }
    split; [exact Hnd|]. destruct (Hunique Hnd) as [Hc Hall].
    split; [exact Hc|]. split; [|exact Hall].
    unfold candidates, candidates_of. now rewrite Hplanned.
  - intros country Hnone.
    apply map_eq_nil with (f := Candidate.city).
    rewrite Hcities. unfold dict_get_default. rewrite Hnone.
    induction (count_occ str_eq_dec planned country); simpl; auto.
Qed.

(* ------------------------------------------------------------------ *)
(** * The range of the scores *)
(* ------------------------------------------------------------------ *)

Section CosineFacts.

Local Open Scope R_scope.








End CosineFacts.



